(** * The curl-impersonate shim: an embedding and its properties

    [src/native/curl_impersonate_shim/curl_impersonate_shim.c] re-exports
    libcurl's easy and multi interfaces under [bsn_]-prefixed symbols.  The
    library itself is opaque here: every [curl_*] entry point is an event that
    an arbitrary handler interprets over a world made of the library's private
    state and the memory the caller and the library share. *)

From stdpp Require Import gmap strings list sorting.

Module Shim.
#[local] Open Scope Z_scope.

(** ** C values *)

(** Pointers are addresses; the null pointer is address zero. *)
Abbreviation ptr := Z (only parsing).
Definition NULL : ptr := 0.

(** The C types that occur as return types of the exported functions and of
    the library functions they call. *)
Inductive ctype :=
| TVoid        (* void *)
| TInt         (* int *)
| TCURLcode    (* CURLcode *)
| TCURLMcode   (* CURLMcode *)
| TCURL_p      (* CURL * *)
| TCURLM_p     (* CURLM * *)
| TStr         (* const char * *)
| TSlist_p     (* struct curl_slist * *)
| TCURLMsg_p.  (* CURLMsg * *)

#[global] Instance ctype_eq_dec : EqDecision ctype.
Proof. solve_decision. Defined.

(** A value of a C type: nothing for [void], an integer otherwise (enum
    constants, [int]s and addresses alike). *)
Definition val (t : ctype) : Type :=
  match t with
  | TVoid => unit
  | _ => Z
  end.

(** Conversion to [int]: reduction to the signed 32-bit range. *)
Definition to_int (z : Z) : Z := (z + 2 ^ 31) `mod` 2 ^ 32 - 2 ^ 31.

(** The last, variadic argument of [curl_easy_setopt] and
    [curl_easy_getinfo], tagged with the C type it is passed at. *)
Inductive vararg :=
| VaLong (value : Z)            (* long *)
| VaPtr (value : ptr)           (* void * *)
| VaStr (value : ptr)           (* const char * *)
| VaWriteCb (callback : ptr)    (* curl_write_callback *)
| VaXferinfoCb (callback : ptr) (* curl_xferinfo_callback *)
| VaLongPtr (value : ptr).      (* long * *)

(** ** Memory *)

(** [CURLMsg] is declared in [<curl/curl.h>], which is not part of this
    repository; the record has the three members the shim reads:
    [msg], [easy_handle] and [data.result]. *)
Record CURLMsg := mkCURLMsg {
  m_msg : Z;          (* CURLMSG msg *)
  m_easy_handle : ptr;  (* CURL *easy_handle *)
  m_data_result : Z   (* CURLcode data.result *)
}.

Inductive field := F_msg | F_easy_handle | F_data_result.

Definition get_field (f : field) (m : CURLMsg) : Z :=
  match f with
  | F_msg => m_msg m
  | F_easy_handle => m_easy_handle m
  | F_data_result => m_data_result m
  end.

(** Memory is typed: an object is an [int]-sized integer (an [int] or a
    [CURLcode]), a pointer, or a [CURLMsg] structure. *)
Inductive cell :=
| CInt (n : Z)
| CPtr (p : ptr)
| CMsg (m : CURLMsg).

Abbreviation heap := (gmap Z cell) (only parsing).

(** The memory accesses the shim performs.  Each one is undefined (no
    result) through the null pointer, through an address that holds no
    object, and through an address that holds an object of another type. *)
Inductive memE : Type -> Type :=
| Load (p : ptr) (f : field) : memE Z          (* p->f *)
| Store_int (p : ptr) (v : Z) : memE unit      (* *p = v, p an int * or CURLcode * *)
| Store_ptr (p : ptr) (v : ptr) : memE unit.   (* *p = v, p a CURL ** *)

Definition mem_step {X} (a : memE X) (h : heap) : option (X * heap) :=
  match a in memE X return option (X * heap) with
  | Load p f =>
      if decide (p = NULL) then None else
      match h !! p with
      | Some (CMsg m) => Some (get_field f m, h)
      | _ => None
      end
  | Store_int p v =>
      if decide (p = NULL) then None else
      match h !! p with
      | Some (CInt _) => Some (tt, <[p := CInt v]> h)
      | _ => None
      end
  | Store_ptr p v =>
      if decide (p = NULL) then None else
      match h !! p with
      | Some (CPtr _) => Some (tt, <[p := CPtr v]> h)
      | _ => None
      end
  end.

(** The address an access goes through. *)
Definition mem_addr {X} (a : memE X) : ptr :=
  match a with
  | Load p _ => p
  | Store_int p _ => p
  | Store_ptr p _ => p
  end.

Definition is_store {X} (a : memE X) : bool :=
  match a with
  | Load _ _ => false
  | Store_int _ _ => true
  | Store_ptr _ _ => true
  end.

(** ** The wrapped library *)

(** One constructor per libcurl function the shim calls, with the arguments
    of the C prototype and indexed by the function's return type. *)
Inductive curlE : ctype -> Type :=
| Curl_global_init (flags : Z) : curlE TCURLcode
| Curl_easy_init : curlE TCURL_p
| Curl_easy_cleanup (easy_handle : ptr) : curlE TVoid
| Curl_easy_reset (easy_handle : ptr) : curlE TVoid
| Curl_easy_setopt (easy_handle : ptr) (option : Z) (value : vararg) : curlE TCURLcode
| Curl_easy_perform (easy_handle : ptr) : curlE TCURLcode
| Curl_easy_getinfo (easy_handle : ptr) (info : Z) (value : vararg) : curlE TCURLcode
| Curl_easy_strerror (code : Z) : curlE TStr
| Curl_slist_append (list : ptr) (header : ptr) : curlE TSlist_p
| Curl_slist_free_all (list : ptr) : curlE TVoid
| Curl_easy_impersonate (easy_handle : ptr) (target : ptr) (default_headers : Z) : curlE TCURLcode
| Curl_multi_init : curlE TCURLM_p
| Curl_multi_cleanup (multi_handle : ptr) : curlE TCURLMcode
| Curl_multi_add_handle (multi_handle : ptr) (easy_handle : ptr) : curlE TCURLMcode
| Curl_multi_remove_handle (multi_handle : ptr) (easy_handle : ptr) : curlE TCURLMcode
| Curl_multi_perform (multi_handle : ptr) (running_handles : ptr) : curlE TCURLMcode
| Curl_multi_poll (multi_handle : ptr) (extra_fds : ptr) (extra_nfds : Z)
    (timeout_ms : Z) (numfds : ptr) : curlE TCURLMcode
| Curl_multi_info_read (multi_handle : ptr) (msgs_in_queue : ptr) : curlE TCURLMsg_p
| Curl_multi_wakeup (multi_handle : ptr) : curlE TCURLMcode
| Curl_multi_strerror (code : Z) : curlE TStr.

(** The world a call runs in: the library's own state and the memory. *)
Record world (L : Type) := World {
  lib_state : L;
  mem : heap
}.
Arguments World {L} _ _.
Arguments lib_state {L} _.
Arguments mem {L} _.

(** An implementation of the library: each call either yields a value and a
    new world, or has no defined outcome. *)
Class CurlLib (L : Type) :=
  curl_call : forall t, curlE t -> world L -> option (val t * world L).
Arguments curl_call {L _ t} _ _.

(** ** Shim programs *)

(** The body of an exported function: it returns, calls the library, or
    accesses memory, and continues with the outcome. *)
Inductive prog (A : Type) : Type :=
| Ret (a : A)
| Call (t : ctype) (e : curlE t) (k : val t -> prog A)
| Mem (X : Type) (a : memE X) (k : X -> prog A).
Arguments Ret {A} _.
Arguments Call {A t} _ _.
Arguments Mem {A X} _ _.

Fixpoint bind {A B} (p : prog A) (f : A -> prog B) : prog B :=
  match p with
  | Ret a => f a
  | Call e k => Call e (fun r => bind (k r) f)
  | Mem a k => Mem a (fun r => bind (k r) f)
  end.

Declare Scope prog_scope.
Delimit Scope prog_scope with prog.
Bind Scope prog_scope with prog.
Notation "x <- c ;; k" := (bind c (fun x => k))
  (at level 100, c at next level, right associativity) : prog_scope.
Notation "c ;; k" := (bind c (fun _ => k))
  (at level 100, right associativity) : prog_scope.

Definition call {t} (e : curlE t) : prog (val t) := Call e Ret.
Definition load (p : ptr) (f : field) : prog Z := Mem (Load p f) Ret.
Definition store_int (p : ptr) (v : Z) : prog unit := Mem (Store_int p v) Ret.
Definition store_ptr (p : ptr) (v : ptr) : prog unit := Mem (Store_ptr p v) Ret.

(** What a run does, in order. *)
Inductive event :=
| Ev_call (t : ctype) (e : curlE t)
| Ev_mem (X : Type) (a : memE X).
Arguments Ev_call {t} _.
Arguments Ev_mem {X} _.

Section Run.
Context {L : Type} `{!CurlLib L}.

(** Running a program: the events performed (an undefined one included,
    as the last) and the outcome, if defined. *)
Fixpoint run {A} (p : prog A) (w : world L) : list event * option (A * world L) :=
  match p with
  | Ret a => ([], Some (a, w))
  | Call e k =>
      match curl_call e w with
      | Some (r, w') => let '(tr, o) := run (k r) w' in (Ev_call e :: tr, o)
      | None => ([Ev_call e], None)
      end
  | Mem a k =>
      match mem_step a (mem w) with
      | Some (r, h') =>
          let '(tr, o) := run (k r) (World (lib_state w) h') in (Ev_mem a :: tr, o)
      | None => ([Ev_mem a], None)
      end
  end.

Definition trace {A} (p : prog A) (w : world L) : list event := (run p w).1.
Definition outcome {A} (p : prog A) (w : world L) : option (A * world L) := (run p w).2.
End Run.

(** ** The exported functions, in the order of the source file *)

Definition bsn_curl_global_init (flags : Z) : prog (val TCURLcode) :=
  call (Curl_global_init flags).

Definition bsn_curl_easy_init : prog (val TCURL_p) :=
  call Curl_easy_init.

Definition bsn_curl_easy_cleanup (easy_handle : ptr) : prog (val TVoid) :=
  call (Curl_easy_cleanup easy_handle).

Definition bsn_curl_easy_reset (easy_handle : ptr) : prog (val TVoid) :=
  call (Curl_easy_reset easy_handle).

Definition bsn_curl_easy_setopt_long (easy_handle : ptr) (option : Z) (value : Z)
  : prog (val TCURLcode) :=
  call (Curl_easy_setopt easy_handle option (VaLong value)).

Definition bsn_curl_easy_setopt_ptr (easy_handle : ptr) (option : Z) (value : ptr)
  : prog (val TCURLcode) :=
  call (Curl_easy_setopt easy_handle option (VaPtr value)).

Definition bsn_curl_easy_setopt_str (easy_handle : ptr) (option : Z) (value : ptr)
  : prog (val TCURLcode) :=
  call (Curl_easy_setopt easy_handle option (VaStr value)).

Definition bsn_curl_easy_setopt_write_callback (easy_handle : ptr) (option : Z)
    (callback : ptr) : prog (val TCURLcode) :=
  call (Curl_easy_setopt easy_handle option (VaWriteCb callback)).

Definition bsn_curl_easy_setopt_xferinfo_callback (easy_handle : ptr) (option : Z)
    (callback : ptr) : prog (val TCURLcode) :=
  call (Curl_easy_setopt easy_handle option (VaXferinfoCb callback)).

Definition bsn_curl_easy_perform (easy_handle : ptr) : prog (val TCURLcode) :=
  call (Curl_easy_perform easy_handle).

Definition bsn_curl_easy_getinfo_long (easy_handle : ptr) (info : Z) (value : ptr)
  : prog (val TCURLcode) :=
  call (Curl_easy_getinfo easy_handle info (VaLongPtr value)).

Definition bsn_curl_easy_strerror (code : Z) : prog (val TStr) :=
  call (Curl_easy_strerror code).

Definition bsn_curl_slist_append (list : ptr) (header : ptr) : prog (val TSlist_p) :=
  call (Curl_slist_append list header).

Definition bsn_curl_slist_free_all (list : ptr) : prog (val TVoid) :=
  call (Curl_slist_free_all list).

Definition bsn_curl_easy_impersonate (easy_handle : ptr) (target : ptr)
    (default_headers : Z) : prog (val TCURLcode) :=
  call (Curl_easy_impersonate easy_handle target default_headers).

Definition bsn_curl_multi_init : prog (val TCURLM_p) :=
  call Curl_multi_init.

Definition bsn_curl_multi_cleanup (multi_handle : ptr) : prog (val TCURLMcode) :=
  call (Curl_multi_cleanup multi_handle).

Definition bsn_curl_multi_add_handle (multi_handle : ptr) (easy_handle : ptr)
  : prog (val TCURLMcode) :=
  call (Curl_multi_add_handle multi_handle easy_handle).

Definition bsn_curl_multi_remove_handle (multi_handle : ptr) (easy_handle : ptr)
  : prog (val TCURLMcode) :=
  call (Curl_multi_remove_handle multi_handle easy_handle).

Definition bsn_curl_multi_perform (multi_handle : ptr) (running_handles : ptr)
  : prog (val TCURLMcode) :=
  call (Curl_multi_perform multi_handle running_handles).

Definition bsn_curl_multi_poll (multi_handle : ptr) (timeout_ms : Z) (numfds : ptr)
  : prog (val TCURLMcode) :=
  call (Curl_multi_poll multi_handle NULL 0 timeout_ms numfds).

Definition bsn_curl_multi_info_read (multi_handle : ptr) (msgs_in_queue : ptr)
    (msg : ptr) (easy_handle : ptr) (result : ptr) : prog (val TInt) :=
  (message <- call (Curl_multi_info_read multi_handle msgs_in_queue);;
   if decide (message = NULL) then Ret 0 else
   (if decide (msg ≠ NULL)
    then (v <- load message F_msg;; store_int msg (to_int v))
    else Ret tt);;
   (if decide (easy_handle ≠ NULL)
    then (v <- load message F_easy_handle;; store_ptr easy_handle v)
    else Ret tt);;
   (if decide (result ≠ NULL)
    then (v <- load message F_data_result;; store_int result v)
    else Ret tt);;
   Ret 1)%prog.

Definition bsn_curl_multi_wakeup (multi_handle : ptr) : prog (val TCURLMcode) :=
  call (Curl_multi_wakeup multi_handle).

Definition bsn_curl_multi_strerror (code : Z) : prog (val TStr) :=
  call (Curl_multi_strerror code).

(** ** The export table *)

(** A call across the boundary: one constructor per exported symbol, with
    the arguments of its C prototype, indexed by its declared return type. *)
Inductive export : ctype -> Type :=
| Bsn_curl_global_init (flags : Z) : export TCURLcode
| Bsn_curl_easy_init : export TCURL_p
| Bsn_curl_easy_cleanup (easy_handle : ptr) : export TVoid
| Bsn_curl_easy_reset (easy_handle : ptr) : export TVoid
| Bsn_curl_easy_setopt_long (easy_handle : ptr) (option : Z) (value : Z) : export TCURLcode
| Bsn_curl_easy_setopt_ptr (easy_handle : ptr) (option : Z) (value : ptr) : export TCURLcode
| Bsn_curl_easy_setopt_str (easy_handle : ptr) (option : Z) (value : ptr) : export TCURLcode
| Bsn_curl_easy_setopt_write_callback (easy_handle : ptr) (option : Z) (callback : ptr)
  : export TCURLcode
| Bsn_curl_easy_setopt_xferinfo_callback (easy_handle : ptr) (option : Z) (callback : ptr)
  : export TCURLcode
| Bsn_curl_easy_perform (easy_handle : ptr) : export TCURLcode
| Bsn_curl_easy_getinfo_long (easy_handle : ptr) (info : Z) (value : ptr) : export TCURLcode
| Bsn_curl_easy_strerror (code : Z) : export TStr
| Bsn_curl_slist_append (list : ptr) (header : ptr) : export TSlist_p
| Bsn_curl_slist_free_all (list : ptr) : export TVoid
| Bsn_curl_easy_impersonate (easy_handle : ptr) (target : ptr) (default_headers : Z)
  : export TCURLcode
| Bsn_curl_multi_init : export TCURLM_p
| Bsn_curl_multi_cleanup (multi_handle : ptr) : export TCURLMcode
| Bsn_curl_multi_add_handle (multi_handle : ptr) (easy_handle : ptr) : export TCURLMcode
| Bsn_curl_multi_remove_handle (multi_handle : ptr) (easy_handle : ptr) : export TCURLMcode
| Bsn_curl_multi_perform (multi_handle : ptr) (running_handles : ptr) : export TCURLMcode
| Bsn_curl_multi_poll (multi_handle : ptr) (timeout_ms : Z) (numfds : ptr) : export TCURLMcode
| Bsn_curl_multi_info_read (multi_handle : ptr) (msgs_in_queue : ptr)
    (msg : ptr) (easy_handle : ptr) (result : ptr) : export TInt
| Bsn_curl_multi_wakeup (multi_handle : ptr) : export TCURLMcode
| Bsn_curl_multi_strerror (code : Z) : export TStr.

(** The body that runs for each exported symbol. *)
Definition shim {t} (c : export t) : prog (val t) :=
  match c in export t return prog (val t) with
  | Bsn_curl_global_init flags => bsn_curl_global_init flags
  | Bsn_curl_easy_init => bsn_curl_easy_init
  | Bsn_curl_easy_cleanup h => bsn_curl_easy_cleanup h
  | Bsn_curl_easy_reset h => bsn_curl_easy_reset h
  | Bsn_curl_easy_setopt_long h o v => bsn_curl_easy_setopt_long h o v
  | Bsn_curl_easy_setopt_ptr h o v => bsn_curl_easy_setopt_ptr h o v
  | Bsn_curl_easy_setopt_str h o v => bsn_curl_easy_setopt_str h o v
  | Bsn_curl_easy_setopt_write_callback h o cb => bsn_curl_easy_setopt_write_callback h o cb
  | Bsn_curl_easy_setopt_xferinfo_callback h o cb =>
      bsn_curl_easy_setopt_xferinfo_callback h o cb
  | Bsn_curl_easy_perform h => bsn_curl_easy_perform h
  | Bsn_curl_easy_getinfo_long h i v => bsn_curl_easy_getinfo_long h i v
  | Bsn_curl_easy_strerror code => bsn_curl_easy_strerror code
  | Bsn_curl_slist_append l hd => bsn_curl_slist_append l hd
  | Bsn_curl_slist_free_all l => bsn_curl_slist_free_all l
  | Bsn_curl_easy_impersonate h tg dh => bsn_curl_easy_impersonate h tg dh
  | Bsn_curl_multi_init => bsn_curl_multi_init
  | Bsn_curl_multi_cleanup m => bsn_curl_multi_cleanup m
  | Bsn_curl_multi_add_handle m h => bsn_curl_multi_add_handle m h
  | Bsn_curl_multi_remove_handle m h => bsn_curl_multi_remove_handle m h
  | Bsn_curl_multi_perform m r => bsn_curl_multi_perform m r
  | Bsn_curl_multi_poll m tm n => bsn_curl_multi_poll m tm n
  | Bsn_curl_multi_info_read m q msg h r => bsn_curl_multi_info_read m q msg h r
  | Bsn_curl_multi_wakeup m => bsn_curl_multi_wakeup m
  | Bsn_curl_multi_strerror code => bsn_curl_multi_strerror code
  end.

Definition is_info_read {t} (c : export t) : bool :=
  match c with
  | Bsn_curl_multi_info_read _ _ _ _ _ => true
  | _ => false
  end.

(** Status types: the two libcurl result enumerations. *)
Definition is_status (t : ctype) : bool :=
  match t with
  | TCURLcode | TCURLMcode => true
  | _ => false
  end.

(** "Every shim entry point returns its outcome as a CURLcode/CURLMcode (or
    the 0/1 availability flag of bsn_curl_multi_info_read)". *)
Definition surfaces_as_status {t} (c : export t) : Prop :=
  is_status t = true \/ is_info_read c = true.

(** ** Forwarding, as the specification words it *)

(** The library call that corresponds to an exported symbol, applied to the
    symbol's own arguments.  [curl_easy_setopt] and [curl_easy_getinfo] take
    the value at the C type of the symbol's parameter; [curl_multi_poll] has
    two parameters more than its export, filled as the source fills them;
    [curl_multi_info_read] has two parameters, the first two of its export. *)
Definition wrapped {t} (c : export t) : sigT curlE :=
  match c with
  | Bsn_curl_global_init flags => existT _ (Curl_global_init flags)
  | Bsn_curl_easy_init => existT _ Curl_easy_init
  | Bsn_curl_easy_cleanup h => existT _ (Curl_easy_cleanup h)
  | Bsn_curl_easy_reset h => existT _ (Curl_easy_reset h)
  | Bsn_curl_easy_setopt_long h o v => existT _ (Curl_easy_setopt h o (VaLong v))
  | Bsn_curl_easy_setopt_ptr h o v => existT _ (Curl_easy_setopt h o (VaPtr v))
  | Bsn_curl_easy_setopt_str h o v => existT _ (Curl_easy_setopt h o (VaStr v))
  | Bsn_curl_easy_setopt_write_callback h o cb =>
      existT _ (Curl_easy_setopt h o (VaWriteCb cb))
  | Bsn_curl_easy_setopt_xferinfo_callback h o cb =>
      existT _ (Curl_easy_setopt h o (VaXferinfoCb cb))
  | Bsn_curl_easy_perform h => existT _ (Curl_easy_perform h)
  | Bsn_curl_easy_getinfo_long h i v => existT _ (Curl_easy_getinfo h i (VaLongPtr v))
  | Bsn_curl_easy_strerror code => existT _ (Curl_easy_strerror code)
  | Bsn_curl_slist_append l hd => existT _ (Curl_slist_append l hd)
  | Bsn_curl_slist_free_all l => existT _ (Curl_slist_free_all l)
  | Bsn_curl_easy_impersonate h tg dh => existT _ (Curl_easy_impersonate h tg dh)
  | Bsn_curl_multi_init => existT _ Curl_multi_init
  | Bsn_curl_multi_cleanup m => existT _ (Curl_multi_cleanup m)
  | Bsn_curl_multi_add_handle m h => existT _ (Curl_multi_add_handle m h)
  | Bsn_curl_multi_remove_handle m h => existT _ (Curl_multi_remove_handle m h)
  | Bsn_curl_multi_perform m r => existT _ (Curl_multi_perform m r)
  | Bsn_curl_multi_poll m tm n => existT _ (Curl_multi_poll m NULL 0 tm n)
  | Bsn_curl_multi_info_read m q _ _ _ => existT _ (Curl_multi_info_read m q)
  | Bsn_curl_multi_wakeup m => existT _ (Curl_multi_wakeup m)
  | Bsn_curl_multi_strerror code => existT _ (Curl_multi_strerror code)
  end.

(** A value with its C type forgotten, to compare returns of different
    declared types. *)
Definition untyped {t} : val t -> option Z :=
  match t with
  | TVoid => fun _ => None
  | _ => fun z => Some z
  end.

Definition untyped_outcome {L t} (o : option (val t * world L)) : option (option Z * world L) :=
  prod_map untyped id <$> o.

Section Forwarding.
Context {L : Type} `{!CurlLib L}.

(** "Calling the bsn_* function returns exactly the value of the
    corresponding wrapped curl_* function applied to those same
    arguments": same returned value, same world afterwards. *)
Definition forwards_exactly {t} (c : export t) (w : world L) : Prop :=
  untyped_outcome (outcome (shim c) w) = untyped_outcome (curl_call (projT2 (wrapped c)) w).
End Forwarding.

(** ** Reading a trace *)

(** The address a memory event goes through, and the address it writes. *)
Definition deref_addr (ev : event) : option Z :=
  match ev with
  | Ev_mem a => Some (mem_addr a)
  | Ev_call _ => None
  end.

Definition store_addr (ev : event) : option Z :=
  match ev with
  | Ev_mem a => if is_store a then Some (mem_addr a) else None
  | Ev_call _ => None
  end.

(** The caller-supplied extra descriptor set of a readiness wait. *)
Definition extra_fds_of {t} (e : curlE t) : option (Z * Z) :=
  match e with
  | Curl_multi_poll _ extra_fds extra_nfds _ _ => Some (extra_fds, extra_nfds)
  | _ => None
  end.

Definition poll_extra (ev : event) : option (Z * Z) :=
  match ev with
  | Ev_call e => extra_fds_of e
  | Ev_mem _ => None
  end.

(** The memory after the three guarded stores of
    [bsn_curl_multi_info_read], in source order. *)
Definition copy_out (m : CURLMsg) (msg easy_handle result : ptr) (h : heap) : heap :=
  let h1 := if decide (msg ≠ NULL) then <[msg := CInt (to_int (m_msg m))]> h else h in
  let h2 := if decide (easy_handle ≠ NULL)
            then <[easy_handle := CPtr (m_easy_handle m)]> h1 else h1 in
  if decide (result ≠ NULL) then <[result := CInt (m_data_result m)]> h2 else h2.

(** An output pointer the caller may pass: null, or the address of an
    object of the pointed-to type. *)
Definition int_out (h : heap) (p : ptr) : Prop :=
  p = NULL \/ exists n, h !! p = Some (CInt n).
Definition ptr_out (h : heap) (p : ptr) : Prop :=
  p = NULL \/ exists q, h !! p = Some (CPtr q).

(** The accesses of the three guarded copies, in source order. *)
Definition copy_events (m : CURLMsg) (message msg easy_handle result : ptr) : list event :=
  (if decide (msg ≠ NULL)
   then [Ev_mem (Load message F_msg); Ev_mem (Store_int msg (to_int (m_msg m)))]
   else []) ++
  (if decide (easy_handle ≠ NULL)
   then [Ev_mem (Load message F_easy_handle); Ev_mem (Store_ptr easy_handle (m_easy_handle m))]
   else []) ++
  (if decide (result ≠ NULL)
   then [Ev_mem (Load message F_data_result); Ev_mem (Store_int result (m_data_result m))]
   else []).

(** ** Properties that can be read off a program *)

(** Every event a program can perform satisfies [P]. *)
Fixpoint all_events (P : event -> Prop) {A} (p : prog A) : Prop :=
  match p with
  | Ret _ => True
  | Call e k => P (Ev_call e) /\ forall r, all_events P (k r)
  | Mem a k => P (Ev_mem a) /\ forall r, all_events P (k r)
  end.

(** Every value a program can return satisfies [P]. *)
Fixpoint all_returns {A} (P : A -> Prop) (p : prog A) : Prop :=
  match p with
  | Ret a => P a
  | Call e k => forall r, all_returns P (k r)
  | Mem a k => forall r, all_returns P (k r)
  end.

(** ** Further readings of events and values *)

(** Whether an event is a memory access of the shim's own. *)
Definition is_mem_event (ev : event) : bool :=
  match ev with
  | Ev_mem _ => true
  | Ev_call _ => false
  end.

(** The range of [int]. *)
Definition int_min : Z := - 2 ^ 31.
Definition int_max : Z := 2 ^ 31 - 1.

(** ** A small stand-in library *)

(** Enough of a library to run the shim on: its state is the queue of
    completion messages not yet read; [curl_multi_info_read] pops the queue
    into a structure it owns at [msg_slot] and reports the number left,
    the [init] functions hand out fixed handles, [curl_easy_perform] reports
    the code of the first queued message, everything else succeeds. *)
Module Fake.

Definition easy_slot : ptr := 256.
Definition multi_slot : ptr := 512.
Definition msg_slot : ptr := 4096.

Definition poke_int (p : ptr) (v : Z) (h : heap) : heap :=
  match h !! p with
  | Some (CInt _) => <[p := CInt v]> h
  | _ => h
  end.

Definition zero (t : ctype) : val t :=
  match t with
  | TVoid => tt
  | _ => 0
  end.

Definition fake_call t (e : curlE t) (w : world (list CURLMsg))
  : option (val t * world (list CURLMsg)) :=
  match e in curlE t return option (val t * world (list CURLMsg)) with
  | Curl_easy_init => Some (easy_slot, w)
  | Curl_multi_init => Some (multi_slot, w)
  | Curl_easy_perform _ =>
      Some (match lib_state w with m :: _ => m_data_result m | [] => 0 end, w)
  | Curl_multi_info_read _ msgs_in_queue =>
      match lib_state w with
      | [] => Some (NULL, World [] (poke_int msgs_in_queue 0 (mem w)))
      | m :: rest =>
          Some (msg_slot,
                World rest (<[msg_slot := CMsg m]>
                              (poke_int msgs_in_queue (Z.of_nat (length rest)) (mem w))))
      end
  | @Curl_easy_cleanup _ | @Curl_easy_reset _ | @Curl_slist_free_all _ => Some (tt, w)
  | _ => Some (0, w)
  end.

#[global] Instance fake_lib : CurlLib (list CURLMsg) := fake_call.

(** One finished transfer on handle 256 that failed with code 7, and
    three objects of the caller's at 16, 24 and 32. *)
Definition done_msg : CURLMsg := mkCURLMsg 1 easy_slot 7.
Definition caller_heap : heap :=
  <[16 := CInt (-1)]> (<[24 := CPtr 0]> (<[32 := CInt (-1)]> ∅)).
Definition w_pending : world (list CURLMsg) := World [done_msg] caller_heap.
Definition w_idle : world (list CURLMsg) := World [] caller_heap.
(** The world after the pending message has been read. *)
Definition w_read : world (list CURLMsg) :=
  World [] (<[msg_slot := CMsg done_msg]> caller_heap).

End Fake.

End Shim.

(** * The components the specification designs around the shim

    The specification describes an Identity Profile Registry and a
    Multi-Transfer Scheduler.  Neither has code under [src/], which holds the
    forwarding shim only; both are modelled here from the specification's
    text (sections 3, 4.1 and 4.4). *)

Module Registry.

(** Modelled from the spec: the IdentityProfile record of section 3, which
    has no declaration under [src/]; cipher and extension IDs are numbers. *)
Record IdentityProfile := mkProfile {
  name : string;
  tlsCipherSuites : list N;
  tlsExtensionOrder : list N;
  alpnProtocols : list string;
  defaultHeaders : list (string * string)
}.

(** Modelled from the spec: the two registry errors of the taxonomy in
    section 7. *)
Inductive error := DuplicateProfile | UnknownProfile.

(** Modelled from the spec: the outcome of a registry operation, a value or
    one of the errors above. *)
Inductive result (A : Type) :=
| Ok (a : A)
| Fail (e : error).
Arguments Ok {A} _.
Arguments Fail {A} _.

(** Modelled from the spec: the registry is "a mapping from profile name" to
    profile (section 2); the empty mapping is the registry at startup. *)
Definition empty : gmap string IdentityProfile := ∅.

(** Modelled from the spec: "register(profile) fails with DuplicateProfile
    if the name exists" (section 4.1); otherwise the profile is stored under
    its name.  The second component is the registry afterwards. *)
Definition register (profile : IdentityProfile) (reg : gmap string IdentityProfile)
  : result unit * gmap string IdentityProfile :=
  match reg !! name profile with
  | Some _ => (Fail DuplicateProfile, reg)
  | None => (Ok tt, <[name profile := profile]> reg)
  end.

(** Modelled from the spec: "lookup(name) returns the profile or fails with
    UnknownProfile" (section 4.1). *)
Definition lookup (n : string) (reg : gmap string IdentityProfile) : result IdentityProfile :=
  match reg !! n with
  | Some profile => Ok profile
  | None => Fail UnknownProfile
  end.

(** Modelled from the spec: the registry is "populated at startup" by a
    sequence of [register] calls, failed ones included. *)
Definition register_all (profiles : list IdentityProfile) (reg : gmap string IdentityProfile)
  : gmap string IdentityProfile :=
  foldl (fun r profile => (register profile r).2) reg profiles.

End Registry.

Module Scheduler.

(** Modelled from the spec: the CompletionRecord of section 3; handle ids
    are numbers, so that "ascending handle id" has a meaning. *)
Record CompletionRecord := mkRecord {
  handleId : nat;
  resultCode : Z;
  errorDetail : option string
}.

(** Modelled from the spec: the scheduler's error of section 7. *)
Inductive error := AlreadyRegistered.

(** Modelled from the spec: the Multi-Transfer Scheduler's state (sections 3
    and 4.4): the SchedulerSet of handles in flight, keyed by id, and the
    records of the handles that reached a terminal state since the last
    drain, in completion order. *)
Record scheduler := mkScheduler {
  inflight : gset nat;
  pending : list CompletionRecord
}.

Definition empty : scheduler := mkScheduler ∅ [].

(** Modelled from the spec: a handle is tracked from [addHandle] until it is
    removed, or drained after reaching a terminal state. *)
Definition tracked (id : nat) (s : scheduler) : Prop :=
  id ∈ inflight s \/ id ∈ handleId <$> pending s.

#[global] Instance tracked_dec id s : Decision (tracked id s).
Proof. unfold tracked. apply _. Defined.

(** Modelled from the spec: "addHandle(handle) fails with AlreadyRegistered
    if handle id is already tracked" (section 4.4). *)
Definition addHandle (id : nat) (s : scheduler) : error + scheduler :=
  if decide (tracked id s) then inl AlreadyRegistered
  else inr (mkScheduler ({[id]} ∪ inflight s) (pending s)).

(** Modelled from the spec: "removeHandle(handle) detaches a handle before
    completion; allowed only while InFlight or Registered" (section 4.4); no
    record is ever produced for it (section 8). *)
Definition removeHandle (id : nat) (s : scheduler) : option scheduler :=
  if decide (id ∈ inflight s) then Some (mkScheduler (inflight s ∖ {[id]}) (pending s))
  else None.

(** Modelled from the spec: what the fake transport of section 8 reports in
    one readiness wait: the handles it marks ready simultaneously, each with
    the result code and error detail of its finished transfer. *)
Abbreviation readiness := (gmap nat (Z * option string)) (only parsing).

Definition by_id : relation (nat * (Z * option string)) := fun a b => a.1 ≤ b.1.

#[global] Instance by_id_dec a b : Decision (by_id a b).
Proof. unfold by_id. apply _. Defined.

(** Modelled from the spec: the handles in flight that one readiness wait
    detects, "ties broken by ascending handle id" (section 4.4). *)
Definition detected (ready : readiness) (s : scheduler) : list (nat * (Z * option string)) :=
  merge_sort by_id (map_to_list (filter (fun kv => kv.1 ∈ inflight s) ready)).

Definition batch (ready : readiness) (s : scheduler) : list CompletionRecord :=
  (fun kv => mkRecord kv.1 kv.2.1 kv.2.2) <$> detected ready s.

(** Modelled from the spec: one round of readiness detection: the detected
    handles reach a terminal state, leave the set in flight, and their
    records join the queue behind those of earlier rounds. *)
Definition advance (ready : readiness) (s : scheduler) : scheduler :=
  mkScheduler (inflight s ∖ dom ready) (pending s ++ batch ready s).

(** Modelled from the spec: "pumpOnce() -> count of handles whose state
    changed: performs one non-blocking round of I/O across all tracked
    handles" (section 4.4). *)
Definition pumpOnce (ready : readiness) (s : scheduler) : nat * scheduler :=
  (length (batch ready s), advance ready s).

(** Modelled from the spec: "wait(timeoutMs) blocks the calling thread until
    at least one handle's readiness changes or the timeout elapses"
    (section 4.4); an elapsed timeout or a wakeup is an empty [ready]. *)
Definition wait (timeoutMs : Z) (ready : readiness) (s : scheduler) : scheduler :=
  advance ready s.

(** Modelled from the spec: "drainCompletions() returns and removes all
    handles that reached a terminal state since the last drain, in
    completion order" (section 4.4). *)
Definition drainCompletions (s : scheduler) : list CompletionRecord * scheduler :=
  (pending s, mkScheduler (inflight s) []).

(** Modelled from the spec: the states a scheduler goes through, from the
    empty one, under the operations of section 4.4. *)
Inductive reachable : scheduler -> Prop :=
| reach_empty : reachable empty
| reach_add id s s' : reachable s -> addHandle id s = inr s' -> reachable s'
| reach_remove id s s' : reachable s -> removeHandle id s = Some s' -> reachable s'
| reach_pump ready s : reachable s -> reachable (pumpOnce ready s).2
| reach_wait timeoutMs ready s : reachable s -> reachable (wait timeoutMs ready s)
| reach_drain s : reachable s -> reachable (drainCompletions s).2.

(** The invariant of reachable schedulers: no handle has two records
    waiting, and a handle with a record waiting is no longer in flight. *)
Definition wf (s : scheduler) : Prop :=
  NoDup (handleId <$> pending s) /\
  forall id, id ∈ handleId <$> pending s -> id ∉ inflight s.

(** Modelled from the spec: a caller's use of the scheduler, one operation
    of section 4.4 after another. *)
Inductive op :=
| AddHandle (id : nat)
| RemoveHandle (id : nat)
| PumpOnce (ready : readiness)
| Wait (timeoutMs : Z) (ready : readiness)
| DrainCompletions.

(** Modelled from the spec: one operation: the scheduler afterwards and the
    records handed to the caller (none unless the operation is a drain).  A
    refused [addHandle] or [removeHandle] leaves the scheduler as it was. *)
Definition step (o : op) (s : scheduler) : scheduler * list CompletionRecord :=
  match o with
  | AddHandle id => (match addHandle id s with inr s' => s' | inl _ => s end, [])
  | RemoveHandle id => (match removeHandle id s with Some s' => s' | None => s end, [])
  | PumpOnce ready => ((pumpOnce ready s).2, [])
  | Wait timeoutMs ready => (wait timeoutMs ready s, [])
  | DrainCompletions => ((drainCompletions s).2, (drainCompletions s).1)
  end.

(** Modelled from the spec: a whole run: the final scheduler and every
    record the drains of the run returned, in the order returned. *)
Fixpoint exec (ops : list op) (s : scheduler) : scheduler * list CompletionRecord :=
  match ops with
  | [] => (s, [])
  | o :: ops' =>
      let '(s1, out) := step o s in
      let '(s2, outs) := exec ops' s1 in
      (s2, out ++ outs)
  end.

(** Modelled from the spec: what happened during a run, told without the
    queue and the drains: the handles each readiness round brought to a
    terminal state (in round order), and how often a given handle was
    accepted by [addHandle] and detached by [removeHandle]. *)
Definition detects (o : op) (s : scheduler) : list CompletionRecord :=
  match o with
  | PumpOnce ready | Wait _ ready => batch ready s
  | _ => []
  end.

Fixpoint completions (ops : list op) (s : scheduler) : list CompletionRecord :=
  match ops with
  | [] => []
  | o :: ops' => detects o s ++ completions ops' (step o s).1
  end.

Definition submits (id : nat) (o : op) (s : scheduler) : nat :=
  match o with
  | AddHandle id' =>
      match addHandle id' s with
      | inr _ => if decide (id' = id) then 1 else 0
      | inl _ => 0
      end
  | _ => 0
  end.

Definition detaches (id : nat) (o : op) (s : scheduler) : nat :=
  match o with
  | RemoveHandle id' =>
      match removeHandle id' s with
      | Some _ => if decide (id' = id) then 1 else 0
      | None => 0
      end
  | _ => 0
  end.

Fixpoint submitted (id : nat) (ops : list op) (s : scheduler) : nat :=
  match ops with
  | [] => 0
  | o :: ops' => submits id o s + submitted id ops' (step o s).1
  end.

Fixpoint detached (id : nat) (ops : list op) (s : scheduler) : nat :=
  match ops with
  | [] => 0
  | o :: ops' => detaches id o s + detached id ops' (step o s).1
  end.

(** The records of one handle in a sequence, and whether a handle is in
    flight, as numbers. *)
Definition records_of (id : nat) (l : list CompletionRecord) : nat :=
  length (filter (fun r => handleId r = id) l).

Definition in_flight (id : nat) (s : scheduler) : nat :=
  if decide (id ∈ inflight s) then 1 else 0.

(** The scenario of section 8: handles submitted in the order 3, 1, 2; the
    fake transport marks 2 and 3 ready on the first wait (3 listed first,
    and failed with code 28), and 1 on a later one. *)
Definition ready_2_3 : readiness := <[3 := (28%Z, Some "Timeout")]> (<[2 := (0%Z, None)]> ∅).
Definition ready_1 : readiness := <[1 := (0%Z, None)]> ∅.
Definition scenario : list op :=
  [AddHandle 3; AddHandle 1; AddHandle 2;
   Wait 100 ready_2_3; DrainCompletions;
   PumpOnce ready_2_3; Wait 100 ready_1; DrainCompletions].

End Scheduler.

(** * Properties of the shim *)

Module ShimTheory.
Import Shim.
#[local] Open Scope Z_scope.

(** ** Running programs *)

Section RunLemmas.
Context {L : Type} `{!CurlLib L}.

Lemma run_call {t} (e : curlE t) (w : world L) :
  trace (call e) w = [Ev_call e] /\ outcome (call e) w = curl_call e w.
Proof.
  unfold trace, outcome, call; simpl.
  destruct (curl_call e w) as [[r w']|]; auto.
Qed.

Lemma run_call_full {t} (e : curlE t) (w : world L) :
  run (call e) w =
  match curl_call e w with
  | Some (r, w') => ([Ev_call e], Some (r, w'))
  | None => ([Ev_call e], None)
  end.
Proof. unfold call; simpl. destruct (curl_call e w) as [[r w']|]; reflexivity. Qed.

Lemma run_bind {A B} (p : prog A) (f : A -> prog B) (w : world L) :
  run (bind p f) w =
  match run p w with
  | (tr, Some (a, w')) => let '(tr', o) := run (f a) w' in (tr ++ tr', o)
  | (tr, None) => (tr, None)
  end.
Proof.
  revert w; induction p as [a|t e k IH|X a k IH]; intros w; simpl.
  - destruct (run (f a) w); reflexivity.
  - destruct (curl_call e w) as [[r w']|]; [|reflexivity].
    rewrite IH. destruct (run (k r) w') as [tr [[a w'']|]]; [|reflexivity].
    destruct (run (f a) w''); reflexivity.
  - destruct (mem_step a (mem w)) as [[r h']|]; [|reflexivity].
    rewrite IH. destruct (run (k r) _) as [tr [[b w'']|]]; [|reflexivity].
    destruct (run (f b) w''); reflexivity.
Qed.

Lemma all_events_trace (P : event -> Prop) {A} (p : prog A) (w : world L) :
  all_events P p -> Forall P (trace p w).
Proof.
  unfold trace. revert w; induction p as [a|t e k IH|X a k IH]; intros w; simpl.
  - constructor.
  - intros [He Hk]. destruct (curl_call e w) as [[r w']|]; [|by repeat constructor].
    specialize (IH r w' (Hk r)). destruct (run (k r) w'). by constructor.
  - intros [Ha Hk]. destruct (mem_step a (mem w)) as [[r h']|]; [|by repeat constructor].
    specialize (IH r (World (lib_state w) h') (Hk r)). destruct (run (k r) _).
    by constructor.
Qed.

Lemma all_returns_outcome {A} (P : A -> Prop) (p : prog A) (w w' : world L) (a : A) :
  all_returns P p -> outcome p w = Some (a, w') -> P a.
Proof.
  unfold outcome. revert w; induction p as [b|t e k IH|X b k IH]; intros w; simpl.
  - intros Hb [= <- _]. exact Hb.
  - intros Hk. destruct (curl_call e w) as [[r w1]|]; [|done].
    specialize (IH r w1 (Hk r)). destruct (run (k r) w1). exact IH.
  - intros Hk. destruct (mem_step b (mem w)) as [[r h']|]; [|done].
    specialize (IH r (World (lib_state w) h') (Hk r)). destruct (run (k r) _).
    exact IH.
Qed.
End RunLemmas.

Lemma all_events_bind (P : event -> Prop) {A B} (p : prog A) (f : A -> prog B) :
  all_events P p -> (forall a, all_events P (f a)) -> all_events P (bind p f).
Proof.
  intros Hp Hf. induction p as [a|t e k IH|X a k IH]; simpl in *.
  - apply Hf.
  - destruct Hp as [He Hk]. split; [done|]. intros r. by apply IH.
  - destruct Hp as [Ha Hk]. split; [done|]. intros r. by apply IH.
Qed.

Lemma all_returns_bind {A B} (P : B -> Prop) (p : prog A) (f : A -> prog B) :
  (forall a, all_returns P (f a)) -> all_returns P (bind p f).
Proof.
  intros Hf. induction p as [a|t e k IH|X a k IH]; simpl; auto.
Qed.

(** Every export but [bsn_curl_multi_info_read] is one call of its wrapped
    function and nothing else. *)
Lemma shim_is_call {t} (c : export t) :
  is_info_read c = false ->
  exists e : curlE t, wrapped c = existT t e /\ shim c = call e.
Proof.
  destruct c; simpl; intros Hc; try discriminate Hc; eexists; split; reflexivity.
Qed.

(** [bsn_curl_multi_info_read] returns 0 or 1, whatever the library does. *)
Lemma info_read_returns_flag multi_handle msgs_in_queue msg easy_handle result :
  all_returns (fun r => r = 0 \/ r = 1)
    (bsn_curl_multi_info_read multi_handle msgs_in_queue msg easy_handle result).
Proof.
  unfold bsn_curl_multi_info_read; simpl. intros message.
  destruct (decide (message = NULL)); simpl; [by left|].
  repeat (apply all_returns_bind; intros _). simpl. by right.
Qed.

(** ** Memory lemmas *)

Lemma int_out_insert_int (h : gmap Z cell) p v q :
  int_out h q -> int_out (<[p := CInt v]> h) q.
Proof.
  intros [->|[n Hn]]; [by left|right].
  destruct (decide (p = q)) as [->|Hne].
  - exists v. by rewrite lookup_insert_eq.
  - exists n. by rewrite lookup_insert_ne.
Qed.

Lemma int_out_insert_ptr (h : gmap Z cell) p v q0 q :
  h !! p = Some (CPtr q0) -> int_out h q -> int_out (<[p := CPtr v]> h) q.
Proof.
  intros Hp [->|[n Hn]]; [by left|right].
  exists n. rewrite lookup_insert_ne; [done|congruence].
Qed.

Lemma ptr_out_insert_int (h : gmap Z cell) p v n q :
  h !! p = Some (CInt n) -> ptr_out h q -> ptr_out (<[p := CInt v]> h) q.
Proof.
  intros Hp [->|[q0 Hq]]; [by left|right].
  exists q0. rewrite lookup_insert_ne; [done|congruence].
Qed.

Lemma msg_insert_int (h : gmap Z cell) p v n q m :
  h !! p = Some (CInt n) -> h !! q = Some (CMsg m) -> <[p := CInt v]> h !! q = Some (CMsg m).
Proof. intros Hp Hq. rewrite lookup_insert_ne; [done|congruence]. Qed.

Lemma msg_insert_ptr (h : gmap Z cell) p v q0 q m :
  h !! p = Some (CPtr q0) -> h !! q = Some (CMsg m) -> <[p := CPtr v]> h !! q = Some (CMsg m).
Proof. intros Hp Hq. rewrite lookup_insert_ne; [done|congruence]. Qed.

Section InfoRead.
Context {L : Type} `{!CurlLib L}.

(** One guarded copy of a structure member into an [int]-sized object. *)
Lemma run_copy_int (message p : ptr) (f : field) (conv : Z -> Z) (w : world L) m :
  message ≠ NULL ->
  (p ≠ NULL -> mem w !! message = Some (CMsg m)) ->
  int_out (mem w) p ->
  run (if decide (p ≠ NULL)
       then bind (load message f) (fun v => store_int p (conv v))
       else Ret tt) w
  = (if decide (p ≠ NULL)
     then [Ev_mem (Load message f); Ev_mem (Store_int p (conv (get_field f m)))]
     else [],
     Some (tt, World (lib_state w)
                 (if decide (p ≠ NULL)
                  then <[p := CInt (conv (get_field f m))]> (mem w) else mem w))).
Proof.
  destruct w as [l h]; simpl. intros Hm Hmsg Hp.
  destruct (decide (p ≠ NULL)) as [Hn|Hn]; [|reflexivity].
  destruct Hp as [->|[n Hp]]; [done|].
  simpl. rewrite decide_False by done. rewrite (Hmsg Hn). simpl.
  rewrite decide_False by done. rewrite Hp. reflexivity.
Qed.

(** One guarded copy of a structure member into a pointer object. *)
Lemma run_copy_ptr (message p : ptr) (f : field) (w : world L) m :
  message ≠ NULL ->
  (p ≠ NULL -> mem w !! message = Some (CMsg m)) ->
  ptr_out (mem w) p ->
  run (if decide (p ≠ NULL)
       then bind (load message f) (fun v => store_ptr p v)
       else Ret tt) w
  = (if decide (p ≠ NULL)
     then [Ev_mem (Load message f); Ev_mem (Store_ptr p (get_field f m))]
     else [],
     Some (tt, World (lib_state w)
                 (if decide (p ≠ NULL)
                  then <[p := CPtr (get_field f m)]> (mem w) else mem w))).
Proof.
  destruct w as [l h]; simpl. intros Hm Hmsg Hp.
  destruct (decide (p ≠ NULL)) as [Hn|Hn]; [|reflexivity].
  destruct Hp as [->|[n Hp]]; [done|].
  simpl. rewrite decide_False by done. rewrite (Hmsg Hn). simpl.
  rewrite decide_False by done. rewrite Hp. reflexivity.
Qed.

(** The whole run when a message is available and the caller's pointers
    are null or valid. *)
Lemma run_info_read_some multi_handle msgs_in_queue msg easy_handle result
    (w w1 : world L) message m :
  curl_call (Curl_multi_info_read multi_handle msgs_in_queue) w = Some (message, w1) ->
  message ≠ NULL ->
  (msg ≠ NULL \/ easy_handle ≠ NULL \/ result ≠ NULL ->
   mem w1 !! message = Some (CMsg m)) ->
  int_out (mem w1) msg -> ptr_out (mem w1) easy_handle -> int_out (mem w1) result ->
  run (bsn_curl_multi_info_read multi_handle msgs_in_queue msg easy_handle result) w =
  (Ev_call (Curl_multi_info_read multi_handle msgs_in_queue)
     :: copy_events m message msg easy_handle result,
   Some (1, World (lib_state w1) (copy_out m msg easy_handle result (mem w1)))).
Proof.
  intros Hcall Hmsg Hvalid Hm He Hr.
  unfold bsn_curl_multi_info_read.
  rewrite run_bind, run_call_full, Hcall. cbv beta iota.
  rewrite decide_False by done.
  rewrite run_bind.
  rewrite (run_copy_int message msg F_msg to_int w1 m) by tauto.
  cbv beta iota. rewrite run_bind.
  set (h1 := if decide (msg ≠ NULL) then _ else _).
  assert (Hv1 : easy_handle ≠ NULL \/ result ≠ NULL -> h1 !! message = Some (CMsg m)).
  { intros Hor. subst h1. case_decide as Hn; [|tauto].
    destruct Hm as [->|[n Hn']]; [done|]. eapply msg_insert_int; eauto. }
  assert (He1 : ptr_out h1 easy_handle).
  { subst h1. case_decide as Hn; [|done].
    destruct Hm as [->|[n Hn']]; [done|]. eapply ptr_out_insert_int; eauto. }
  assert (Hr1 : int_out h1 result).
  { subst h1. case_decide; [|done]. by apply int_out_insert_int. }
  rewrite (run_copy_ptr message easy_handle F_easy_handle (World (lib_state w1) h1) m)
    by (simpl; tauto).
  cbv beta iota. rewrite run_bind. simpl lib_state. simpl mem.
  set (h2 := if decide (easy_handle ≠ NULL) then _ else _).
  assert (Hv2 : result ≠ NULL -> h2 !! message = Some (CMsg m)).
  { intros Hor. subst h2. case_decide as Hn; [|tauto].
    destruct He1 as [->|[n Hn']]; [done|]. eapply msg_insert_ptr; eauto. }
  assert (Hr2 : int_out h2 result).
  { subst h2. case_decide as Hn; [|done].
    destruct He1 as [->|[n Hn']]; [done|]. eapply int_out_insert_ptr; eauto. }
  rewrite (run_copy_int message result F_data_result (fun v => v)
             (World (lib_state w1) h2) m Hmsg Hv2 Hr2).
  simpl. rewrite app_nil_r.
  unfold copy_events, copy_out. reflexivity.
Qed.

(** No access of [bsn_curl_multi_info_read] goes through a null pointer,
    whatever the library returns and whatever the memory holds. *)
Lemma info_read_never_derefs_null multi_handle msgs_in_queue msg easy_handle result :
  all_events (fun ev => deref_addr ev ≠ Some NULL)
    (bsn_curl_multi_info_read multi_handle msgs_in_queue msg easy_handle result).
Proof.
  unfold bsn_curl_multi_info_read; simpl. split; [done|]. intros message.
  destruct (decide (message = NULL)) as [|Hm]; simpl; [done|].
  repeat (apply all_events_bind; [|intros _]); try done;
    case_decide; simpl; try done; repeat split; try done; congruence.
Qed.

(** Every library call an export makes that is a readiness wait carries an
    empty extra descriptor set. *)
Lemma shim_poll_extra_empty {t} (c : export t) :
  all_events (fun ev => forall x, poll_extra ev = Some x -> x = (NULL, 0)) (shim c).
Proof.
  destruct c; simpl; try (split; [|done]; simpl; congruence).
  unfold bsn_curl_multi_info_read; simpl. split; [done|]. intros message.
  destruct (decide (message = NULL)); simpl; [done|].
  repeat (apply all_events_bind; [|intros _]); try done;
    case_decide; simpl; try done; repeat split; done.
Qed.
End InfoRead.

(** ** The claims about the shim *)

(** C1, as stated, fails: with one completion message queued,
    [bsn_curl_multi_info_read] returns the flag 1 where the wrapped
    [curl_multi_info_read] returns the address of the message. *)
Lemma info_read_not_forwarded :
  ~ forwards_exactly (Bsn_curl_multi_info_read Fake.multi_slot NULL NULL NULL NULL)
      Fake.w_pending.
Proof.
  unfold forwards_exactly. vm_compute. intros H.
  injection H as H. discriminate H.
Qed.

(** C1, amended: every exported function other than
    [bsn_curl_multi_info_read] is exactly one call of its wrapped library
    function on its own arguments ([bsn_curl_multi_poll] adding a null
    [extra_fds] and a zero [extra_nfds]); it performs that one event, returns
    what the call returns and leaves the world as the call leaves it. *)
Theorem shim_forwards_except_info_read {L} `{!CurlLib L} {t} (c : export t) (w : world L) :
  is_info_read c = false ->
  exists e : curlE t,
    wrapped c = existT t e /\
    shim c = Call e Ret /\
    trace (shim c) w = [Ev_call e] /\
    outcome (shim c) w = curl_call e w /\
    forwards_exactly c w.
Proof.
  intros Hc. destruct (shim_is_call c Hc) as (e & Hw & Hs).
  exists e. destruct (run_call e w) as [Htr Ho].
  unfold forwards_exactly. rewrite Hw, Hs. simpl. rewrite Ho. auto.
Qed.

Lemma shim_forwards_except_info_read_witness :
  is_info_read (Bsn_curl_easy_impersonate Fake.easy_slot 64 1) = false /\
  exists e : curlE TCURLcode,
    wrapped (Bsn_curl_easy_impersonate Fake.easy_slot 64 1) = existT TCURLcode e /\
    shim (Bsn_curl_easy_impersonate Fake.easy_slot 64 1) = Call e Ret /\
    trace (shim (Bsn_curl_easy_impersonate Fake.easy_slot 64 1)) Fake.w_idle = [Ev_call e] /\
    outcome (shim (Bsn_curl_easy_impersonate Fake.easy_slot 64 1)) Fake.w_idle
      = curl_call e Fake.w_idle /\
    forwards_exactly (Bsn_curl_easy_impersonate Fake.easy_slot 64 1) Fake.w_idle.
Proof.
  split; [reflexivity|].
  apply (shim_forwards_except_info_read
           (Bsn_curl_easy_impersonate Fake.easy_slot 64 1) Fake.w_idle).
  reflexivity.
Defined.

(** C2: [bsn_curl_multi_info_read] returns 1 exactly when the wrapped
    [curl_multi_info_read] yields a non-null message and 0 otherwise; in the
    first case it stores the message's kind, converted to [int], through
    [msg], its easy handle through [easy_handle] and its result code through
    [result], each only when the pointer is not null.  The library is taken to
    return null or the address of a message, and the caller to pass null or
    the address of an object of the right type. *)
Theorem bsn_curl_multi_info_read_spec {L} `{!CurlLib L}
    multi_handle msgs_in_queue msg easy_handle result (w w1 : world L) message m :
  curl_call (Curl_multi_info_read multi_handle msgs_in_queue) w = Some (message, w1) ->
  (message ≠ NULL -> mem w1 !! message = Some (CMsg m)) ->
  int_out (mem w1) msg -> ptr_out (mem w1) easy_handle -> int_out (mem w1) result ->
  exists r w2,
    outcome (bsn_curl_multi_info_read multi_handle msgs_in_queue msg easy_handle result) w
      = Some (r, w2) /\
    (r = 1 <-> message ≠ NULL) /\
    (message = NULL -> r = 0) /\
    (message ≠ NULL ->
       lib_state w2 = lib_state w1 /\
       mem w2 = copy_out m msg easy_handle result (mem w1) /\
       (msg ≠ NULL -> msg ≠ result -> mem w2 !! msg = Some (CInt (to_int (m_msg m)))) /\
       (easy_handle ≠ NULL -> mem w2 !! easy_handle = Some (CPtr (m_easy_handle m))) /\
       (result ≠ NULL -> mem w2 !! result = Some (CInt (m_data_result m)))).
Proof.
  intros Hcall Hvalid Hm He Hr.
  destruct (decide (message = NULL)) as [Hnull|Hmsg].
  - exists 0, w1. split.
    + unfold outcome, bsn_curl_multi_info_read.
      rewrite run_bind, run_call_full, Hcall. cbv beta iota.
      rewrite decide_True by done. reflexivity.
    + repeat split; try done.
  - exists 1, (World (lib_state w1) (copy_out m msg easy_handle result (mem w1))).
    split.
    + unfold outcome. erewrite run_info_read_some; eauto.
    + split; [done|]. split; [done|]. intros _. simpl.
      split; [done|]. split; [done|]. unfold copy_out.
      split; [|split].
      * intros Hn Hne. rewrite (decide_True _ _ Hn).
        assert (msg ≠ easy_handle).
        { destruct Hm as [->|[n Hn1]]; [done|].
          destruct He as [->|[q Hq]]; [done|]. congruence. }
        repeat case_decide; rewrite ?lookup_insert_ne by done;
          by rewrite lookup_insert_eq.
      * intros Hn. rewrite (decide_True _ _ Hn).
        assert (result ≠ easy_handle).
        { destruct Hr as [->|[n Hn1]]; [|destruct He as [->|[q Hq]]; [done|congruence]].
          done. }
        repeat case_decide; rewrite ?lookup_insert_ne by done;
          by rewrite lookup_insert_eq.
      * intros Hn. rewrite (decide_True _ _ Hn). by rewrite lookup_insert_eq.
Qed.

Lemma bsn_curl_multi_info_read_spec_witness :
  exists w2,
    outcome (bsn_curl_multi_info_read Fake.multi_slot NULL 16 24 32) Fake.w_pending
      = Some (1, w2) /\
    mem w2 !! 16 = Some (CInt 1) /\
    mem w2 !! 24 = Some (CPtr Fake.easy_slot) /\
    mem w2 !! 32 = Some (CInt 7).
Proof.
  destruct (bsn_curl_multi_info_read_spec Fake.multi_slot NULL 16 24 32
              Fake.w_pending Fake.w_read Fake.msg_slot Fake.done_msg)
    as (r & w2 & Ho & Hr & _ & Hst).
  - reflexivity.
  - intros _. reflexivity.
  - right. exists (-1). reflexivity.
  - right. exists 0. reflexivity.
  - right. exists (-1). reflexivity.
  - assert (Hne : Fake.msg_slot ≠ NULL) by (intros H; discriminate H).
    destruct (Hst Hne) as (_ & _ & H16 & H24 & H32).
    exists w2. rewrite Ho. replace r with 1 by (symmetry; by apply Hr).
    split; [reflexivity|]. split; [|split].
    + apply H16; intros H; discriminate H.
    + apply H24; intros H; discriminate H.
    + apply H32; intros H; discriminate H.
Defined.

(** C3: [bsn_curl_multi_poll] is [curl_multi_poll] with a null [extra_fds]
    and a zero [extra_nfds], and no export ever makes a readiness wait with
    any other extra descriptor set. *)
Theorem bsn_curl_multi_poll_no_extra_fds {L} `{!CurlLib L}
    multi_handle timeout_ms numfds (w : world L) :
  bsn_curl_multi_poll multi_handle timeout_ms numfds
    = Call (Curl_multi_poll multi_handle NULL 0 timeout_ms numfds) Ret /\
  trace (bsn_curl_multi_poll multi_handle timeout_ms numfds) w
    = [Ev_call (Curl_multi_poll multi_handle NULL 0 timeout_ms numfds)] /\
  outcome (bsn_curl_multi_poll multi_handle timeout_ms numfds) w
    = curl_call (Curl_multi_poll multi_handle NULL 0 timeout_ms numfds) w /\
  forall t (c : export t),
    Forall (fun ev => forall x, poll_extra ev = Some x -> x = (NULL, 0)) (trace (shim c) w).
Proof.
  split; [reflexivity|].
  destruct (run_call (Curl_multi_poll multi_handle NULL 0 timeout_ms numfds) w) as [Htr Ho].
  split; [exact Htr|]. split; [exact Ho|].
  intros t c. apply all_events_trace, shim_poll_extra_empty.
Qed.

(** C4, as stated, fails: [bsn_curl_easy_init] returns a [CURL *], which is
    neither a status code nor the flag of [bsn_curl_multi_info_read]. *)
Lemma easy_init_returns_no_status : ~ surfaces_as_status Bsn_curl_easy_init.
Proof. intros [H|H]; discriminate H. Qed.

(** C4, amended: every entry point hands its outcome back as a return
    value.  An entry point other than [bsn_curl_multi_info_read] returns
    exactly when and what its wrapped call returns, touching no memory
    itself: a [CURLcode] or [CURLMcode] where it is declared so, and
    otherwise a handle, a string, a list or nothing.
    [bsn_curl_multi_info_read] returns an [int] that is 0 or 1 whenever it
    returns; it does not return when its wrapped call does not; it returns 0
    whenever the wrapped call returns null; and it returns 1, with the
    message's result code stored through a non-null [result], when the
    wrapped call returns a message and the pointers are valid.  Nothing is
    promised for it with an invalid pointer. *)
Theorem shim_returns_values {L} `{!CurlLib L} {t} (c : export t) (w : world L) :
  (is_info_read c = false ->
     (is_status t = true \/ t ∈ [TVoid; TCURL_p; TCURLM_p; TStr; TSlist_p]) /\
     exists e : curlE t,
       trace (shim c) w = [Ev_call e] /\ outcome (shim c) w = curl_call e w) /\
  (is_info_read c = true ->
     t = TInt /\
     forall r w', outcome (shim c) w = Some (r, w') -> untyped r = Some 0 \/ untyped r = Some 1) /\
  (forall multi_handle msgs_in_queue msg easy_handle result,
     (curl_call (Curl_multi_info_read multi_handle msgs_in_queue) w = None ->
      outcome (bsn_curl_multi_info_read multi_handle msgs_in_queue msg easy_handle result) w
        = None) /\
     (forall w1,
        curl_call (Curl_multi_info_read multi_handle msgs_in_queue) w = Some (NULL, w1) ->
        outcome (bsn_curl_multi_info_read multi_handle msgs_in_queue msg easy_handle result) w
          = Some (0, w1)) /\
     (forall w1 message m,
        curl_call (Curl_multi_info_read multi_handle msgs_in_queue) w = Some (message, w1) ->
        message ≠ NULL -> mem w1 !! message = Some (CMsg m) ->
        int_out (mem w1) msg -> ptr_out (mem w1) easy_handle -> int_out (mem w1) result ->
        exists w2,
          outcome (bsn_curl_multi_info_read multi_handle msgs_in_queue msg easy_handle result) w
            = Some (1, w2) /\
          (result ≠ NULL -> mem w2 !! result = Some (CInt (m_data_result m))))).
Proof.
  split; [|split].
  - intros Hc. split.
    + destruct c; simpl in *; try discriminate Hc; try (by left); right; set_solver.
    + destruct (shim_is_call c Hc) as (e & _ & Hs). exists e. rewrite Hs. apply run_call.
  - intros Hc. destruct c; try discriminate Hc. split; [reflexivity|].
    intros r w' Ho. simpl in *.
    destruct (all_returns_outcome _ _ _ _ _
                (info_read_returns_flag multi_handle msgs_in_queue msg easy_handle result) Ho)
      as [->| ->]; auto.
  - intros multi_handle msgs_in_queue msg easy_handle result. split; [|split].
    + intros Hcall. unfold outcome, bsn_curl_multi_info_read.
      rewrite run_bind, run_call_full, Hcall. reflexivity.
    + intros w1 Hcall. unfold outcome, bsn_curl_multi_info_read.
      rewrite run_bind, run_call_full, Hcall. cbv beta iota.
      rewrite decide_True by done. reflexivity.
    + intros w1 message m Hcall Hmsg Hvalid Hm He Hr.
      eexists. split.
      * unfold outcome. erewrite run_info_read_some; eauto.
      * intros Hn. simpl. unfold copy_out. rewrite (decide_True _ _ Hn).
        by rewrite lookup_insert_eq.
Qed.

Lemma shim_returns_values_witness :
  (exists e : curlE TCURLcode,
     trace (shim (Bsn_curl_easy_perform Fake.easy_slot)) Fake.w_pending = [Ev_call e] /\
     outcome (shim (Bsn_curl_easy_perform Fake.easy_slot)) Fake.w_pending
       = curl_call e Fake.w_pending) /\
  outcome (bsn_curl_multi_info_read Fake.multi_slot NULL 16 24 32) Fake.w_idle
    = Some (0, Fake.w_idle) /\
  (exists w2,
     outcome (bsn_curl_multi_info_read Fake.multi_slot NULL NULL NULL 32) Fake.w_pending
       = Some (1, w2) /\
     mem w2 !! 32 = Some (CInt 7)).
Proof.
  destruct (shim_returns_values (Bsn_curl_easy_perform Fake.easy_slot) Fake.w_pending)
    as (Hfwd & _ & Hread).
  destruct (shim_returns_values (Bsn_curl_easy_perform Fake.easy_slot) Fake.w_idle)
    as (_ & _ & Hidle).
  split; [|split].
  - apply Hfwd. reflexivity.
  - destruct (Hidle Fake.multi_slot NULL 16 24 32) as (_ & Hnull & _).
    apply Hnull. reflexivity.
  - destruct (Hread Fake.multi_slot NULL NULL NULL 32) as (_ & _ & Hsome).
    destruct (Hsome Fake.w_read Fake.msg_slot Fake.done_msg) as (w2 & Ho & Hres).
    + reflexivity.
    + intros H; discriminate H.
    + reflexivity.
    + by left.
    + by left.
    + right. exists (-1). reflexivity.
    + exists w2. split; [exact Ho|]. apply Hres. intros H; discriminate H.
Defined.

(** C5: on no run at all does an access of [bsn_curl_multi_info_read] go
    through a null pointer; with a message available it is defined and
    returns 1 for every combination of null and valid output pointers, the
    stores it performs are exactly
    those through the non-null pointers among [msg], [easy_handle] and
    [result], in that order, and memory is unchanged everywhere else.  The
    message itself is read only if one of the three is not null. *)
Theorem bsn_curl_multi_info_read_null_safe {L} `{!CurlLib L}
    multi_handle msgs_in_queue msg easy_handle result (w w1 : world L) message m :
  curl_call (Curl_multi_info_read multi_handle msgs_in_queue) w = Some (message, w1) ->
  message ≠ NULL ->
  (msg ≠ NULL \/ easy_handle ≠ NULL \/ result ≠ NULL -> mem w1 !! message = Some (CMsg m)) ->
  int_out (mem w1) msg -> ptr_out (mem w1) easy_handle -> int_out (mem w1) result ->
  (forall w' : world L,
     Forall (fun ev => deref_addr ev ≠ Some NULL)
       (trace (bsn_curl_multi_info_read multi_handle msgs_in_queue msg easy_handle result) w')) /\
  omap store_addr
    (trace (bsn_curl_multi_info_read multi_handle msgs_in_queue msg easy_handle result) w)
    = filter (fun p => p ≠ NULL) [msg; easy_handle; result] /\
  exists w2,
    outcome (bsn_curl_multi_info_read multi_handle msgs_in_queue msg easy_handle result) w
      = Some (1, w2) /\
    lib_state w2 = lib_state w1 /\
    forall p, p ∉ filter (fun p => p ≠ NULL) [msg; easy_handle; result] ->
              mem w2 !! p = mem w1 !! p.
Proof.
  intros Hcall Hmsg Hvalid Hm He Hr.
  split; [intros w'; apply all_events_trace, info_read_never_derefs_null|].
  unfold trace, outcome.
  rewrite (run_info_read_some _ _ _ _ _ w w1 message m) by done. simpl.
  split.
  - unfold copy_events.
    rewrite !filter_cons, filter_nil.
    destruct (decide (msg ≠ NULL)), (decide (easy_handle ≠ NULL)),
      (decide (result ≠ NULL)); reflexivity.
  - eexists. split; [reflexivity|]. split; [reflexivity|].
    intros p Hp. simpl. unfold copy_out.
    assert (Hin : forall q, q ≠ NULL -> q ∈ [msg; easy_handle; result] -> p ≠ q).
    { intros q Hq Hel ->. apply Hp. apply list_elem_of_filter. by split. }
    repeat case_decide; rewrite ?lookup_insert_ne; try done;
      intros Heq; symmetry in Heq; revert Heq; apply Hin; try done; set_solver.
Qed.

Lemma bsn_curl_multi_info_read_null_safe_witness :
  omap store_addr
    (trace (bsn_curl_multi_info_read Fake.multi_slot NULL NULL 24 NULL) Fake.w_pending)
    = [24] /\
  exists w2,
    outcome (bsn_curl_multi_info_read Fake.multi_slot NULL NULL 24 NULL) Fake.w_pending
      = Some (1, w2) /\
    mem w2 !! 16 = Some (CInt (-1)) /\ mem w2 !! 32 = Some (CInt (-1)).
Proof.
  destruct (bsn_curl_multi_info_read_null_safe Fake.multi_slot NULL NULL 24 NULL
              Fake.w_pending Fake.w_read Fake.msg_slot Fake.done_msg)
    as (_ & Hst & w2 & Ho & _ & Hframe).
  - reflexivity.
  - intros H; discriminate H.
  - intros _. reflexivity.
  - by left.
  - right. exists 0. reflexivity.
  - by left.
  - split; [exact Hst|]. exists w2. split; [exact Ho|].
    split; (rewrite Hframe; [reflexivity|]); vm_compute; intros H;
      repeat (inversion H as [|? ? ? H']; clear H; rename H' into H).
Defined.

(** C6: when the wrapped [curl_multi_info_read] returns null,
    [bsn_curl_multi_info_read] returns 0 having done nothing but that call:
    the world is exactly as the library left it; and on any run at all, a
    store by the shim implies that the return value is 1. *)
Theorem bsn_curl_multi_info_read_none_frame {L} `{!CurlLib L}
    multi_handle msgs_in_queue msg easy_handle result (w w1 : world L) :
  curl_call (Curl_multi_info_read multi_handle msgs_in_queue) w = Some (NULL, w1) ->
  outcome (bsn_curl_multi_info_read multi_handle msgs_in_queue msg easy_handle result) w
    = Some (0, w1) /\
  trace (bsn_curl_multi_info_read multi_handle msgs_in_queue msg easy_handle result) w
    = [Ev_call (Curl_multi_info_read multi_handle msgs_in_queue)] /\
  forall (w' w2 : world L) r,
    outcome (bsn_curl_multi_info_read multi_handle msgs_in_queue msg easy_handle result) w'
      = Some (r, w2) ->
    omap store_addr
      (trace (bsn_curl_multi_info_read multi_handle msgs_in_queue msg easy_handle result) w')
      ≠ [] ->
    r = 1.
Proof.
  intros Hcall. unfold outcome, trace, bsn_curl_multi_info_read.
  split; [|split].
  - rewrite run_bind, run_call_full, Hcall. cbv beta iota.
    rewrite decide_True by done. reflexivity.
  - rewrite run_bind, run_call_full, Hcall. cbv beta iota.
    rewrite decide_True by done. reflexivity.
  - intros w' w2 r. rewrite run_bind, run_call_full.
    destruct (curl_call _ w') as [[message w1']|]; [|done]. cbv beta iota.
    destruct (decide (message = NULL)) as [Hn|Hn]; [simpl; done|].
    match goal with
    | |- context [@run ?L' ?I ?A ?q w1'] =>
        pose proof (@all_returns_outcome L' I A (fun r => r = 1) q w1' w2 r) as Hret;
        unfold outcome in Hret;
        destruct (@run L' I A q w1') as [tr o]
    end.
    simpl in Hret |- *. intros Ho _. apply Hret; [|exact Ho].
    repeat (apply all_returns_bind; intros _). reflexivity.
Qed.

Lemma bsn_curl_multi_info_read_none_frame_witness :
  outcome (bsn_curl_multi_info_read Fake.multi_slot NULL 16 24 32) Fake.w_idle
    = Some (0, Fake.w_idle) /\
  trace (bsn_curl_multi_info_read Fake.multi_slot NULL 16 24 32) Fake.w_idle
    = [Ev_call (Curl_multi_info_read Fake.multi_slot NULL)].
Proof.
  destruct (bsn_curl_multi_info_read_none_frame Fake.multi_slot NULL 16 24 32
              Fake.w_idle Fake.w_idle) as (Ho & Htr & _).
  - reflexivity.
  - split; [exact Ho|exact Htr].
Defined.

End ShimTheory.

(** * Properties of the modelled registry *)

Module RegistryTheory.
Import Registry.

Lemma register_keeps (q : IdentityProfile) (reg : gmap string IdentityProfile) n v :
  reg !! n = Some v -> (register q reg).2 !! n = Some v.
Proof.
  intros Hn. unfold register.
  destruct (reg !! name q) eqn:Hq; simpl; [done|].
  rewrite lookup_insert_ne; [done|]. intros Heq. congruence.
Qed.

Lemma register_all_keeps (qs : list IdentityProfile) (reg : gmap string IdentityProfile) n v :
  reg !! n = Some v -> register_all qs reg !! n = Some v.
Proof.
  revert reg. induction qs as [|q qs IH]; intros reg Hn; simpl; [done|].
  apply IH. by apply register_keeps.
Qed.

Lemma register_all_unknown (ps : list IdentityProfile) (reg : gmap string IdentityProfile) n :
  reg !! n = None -> n ∉ name <$> ps -> register_all ps reg !! n = None.
Proof.
  revert reg. induction ps as [|p ps IH]; intros reg Hn Hps; simpl; [done|].
  rewrite fmap_cons, not_elem_of_cons in Hps. destruct Hps as [Hne Hps].
  apply IH; [|done]. unfold register.
  destruct (reg !! name p); simpl; [done|]. by rewrite lookup_insert_ne.
Qed.

(** C8: a profile registered with success is what [lookup] of its name
    returns, then and after any further registrations; a second
    registration under the same name fails with [DuplicateProfile] and
    leaves the registry, hence the first registration, as it was; [lookup]
    of a name that was never registered fails with [UnknownProfile]. *)
Theorem registry_lookup_register (p : IdentityProfile) (reg reg' : gmap string IdentityProfile) :
  register p reg = (Ok tt, reg') ->
  lookup (name p) reg' = Ok p /\
  (forall q, name q = name p ->
     register q reg' = (Fail DuplicateProfile, reg') /\
     lookup (name p) (register q reg').2 = Ok p) /\
  (forall qs, lookup (name p) (register_all qs reg') = Ok p) /\
  (forall n, reg' !! n = None -> lookup n reg' = Fail UnknownProfile) /\
  (forall ps n, n ∉ name <$> ps -> lookup n (register_all ps empty) = Fail UnknownProfile).
Proof.
  unfold register. destruct (reg !! name p) eqn:Hp; [discriminate|].
  intros [= <-].
  assert (Hin : <[name p := p]> reg !! name p = Some p) by apply lookup_insert_eq.
  split; [|split; [|split; [|split]]].
  - unfold lookup. by rewrite Hin.
  - intros q Hq. unfold lookup. rewrite Hq, Hin. simpl. by rewrite Hin.
  - intros qs. unfold lookup. by rewrite (register_all_keeps qs _ _ _ Hin).
  - intros n Hn. unfold lookup. by rewrite Hn.
  - intros ps n Hn. unfold lookup.
    rewrite (register_all_unknown ps empty n); [done| |done]. apply lookup_empty.
Qed.

Lemma registry_lookup_register_witness :
  let chrome := mkProfile "chrome-120" [4865; 4866; 4867]%N [0; 23; 65281]%N
                  ["h2"; "http/1.1"] [("User-Agent", "Mozilla/5.0")] in
  let other := mkProfile "chrome-120" [] [] [] [] in
  let reg := (register chrome empty).2 in
  lookup "chrome-120" reg = Ok chrome /\
  register other reg = (Fail DuplicateProfile, reg) /\
  lookup "firefox-117" reg = Fail UnknownProfile.
Proof.
  intros chrome other reg.
  destruct (registry_lookup_register chrome empty reg) as (Hl & Hdup & _ & Hun & _).
  - reflexivity.
  - split; [exact Hl|]. split.
    + apply (Hdup other). reflexivity.
    + apply Hun. reflexivity.
Defined.

End RegistryTheory.

(** * Properties of the modelled scheduler *)

Module SchedulerTheory.
Import Scheduler.

#[local] Instance by_id_trans : Transitive by_id.
Proof. intros a b c. unfold by_id. lia. Qed.

#[local] Instance by_id_total : Total by_id.
Proof. intros a b. unfold by_id. lia. Qed.

Lemma batch_ids ready s : handleId <$> batch ready s = (detected ready s).*1.
Proof. unfold batch. rewrite <- list_fmap_compose. reflexivity. Qed.

Lemma detected_ids_perm ready s :
  (detected ready s).*1 ≡ₚ (map_to_list (filter (fun kv => kv.1 ∈ inflight s) ready)).*1.
Proof. unfold detected. by rewrite merge_sort_Permutation. Qed.

Lemma elem_of_batch_ids ready s id :
  id ∈ handleId <$> batch ready s <-> id ∈ dom ready /\ id ∈ inflight s.
Proof.
  rewrite batch_ids, detected_ids_perm, list_elem_of_fmap. split.
  - intros ([i x] & -> & Hin). apply elem_of_map_to_list in Hin.
    apply map_lookup_filter_Some in Hin as [Hin Hfl]. simpl in *.
    split; [|done]. apply elem_of_dom. eauto.
  - intros [Hdom Hfl]. apply elem_of_dom in Hdom as [x Hx].
    exists (id, x). split; [done|]. apply elem_of_map_to_list.
    by apply map_lookup_filter_Some.
Qed.

Lemma NoDup_batch_ids ready s : NoDup (handleId <$> batch ready s).
Proof. rewrite batch_ids, detected_ids_perm. apply NoDup_fst_map_to_list. Qed.

Lemma StronglySorted_le_lt (l : list nat) :
  StronglySorted le l -> NoDup l -> StronglySorted lt l.
Proof.
  induction 1 as [|x l Hl IH Hx]; intros Hnd; [constructor|].
  apply NoDup_cons in Hnd as [Hnin Hnd]. constructor; [by apply IH|].
  rewrite Forall_forall in Hx |- *. intros y Hy.
  specialize (Hx y Hy). assert (x ≠ y) by (intros ->; done). lia.
Qed.

Lemma sorted_batch_ids ready s : StronglySorted lt (handleId <$> batch ready s).
Proof.
  apply StronglySorted_le_lt; [|apply NoDup_batch_ids].
  rewrite batch_ids. apply (StronglySorted_fmap fst by_id le); [done|].
  unfold detected. apply StronglySorted_merge_sort; apply _.
Qed.

Lemma wf_advance ready s : wf s -> wf (advance ready s).
Proof.
  intros [Hnd Hdisj]. split; simpl.
  - rewrite fmap_app. apply NoDup_app. split; [done|]. split; [|apply NoDup_batch_ids].
    intros id Hp Hb. apply elem_of_batch_ids in Hb as [_ Hb]. by apply (Hdisj id).
  - intros id. rewrite fmap_app, elem_of_app. intros [Hp|Hb].
    + specialize (Hdisj id Hp). intros [Hin _]%elem_of_difference. done.
    + apply elem_of_batch_ids in Hb as [Hd _]. intros [_ Hn]%elem_of_difference. done.
Qed.

Lemma wf_reachable s : reachable s -> wf s.
Proof.
  induction 1 as [|id s s' _ IH Hadd|id s s' _ IH Hrm|ready s _ IH|tm ready s _ IH|s _ IH].
  - split; simpl; [constructor|]. intros id Hid. by apply elem_of_nil in Hid.
  - unfold addHandle in Hadd. destruct (decide (tracked id s)) as [|Hnt]; [done|].
    injection Hadd as <-. destruct IH as [Hnd Hdisj]. split; simpl; [done|].
    intros i Hi. specialize (Hdisj i Hi).
    assert (i ≠ id) by (intros ->; apply Hnt; by right).
    intros [Heq%elem_of_singleton|Hin]%elem_of_union; done.
  - unfold removeHandle in Hrm. destruct (decide (id ∈ inflight s)); [|done].
    injection Hrm as <-. destruct IH as [Hnd Hdisj]. split; simpl; [done|].
    intros i Hi. specialize (Hdisj i Hi). intros [Hin _]%elem_of_difference. done.
  - by apply wf_advance.
  - by apply wf_advance.
  - split; simpl; [constructor|]. intros id Hid. by apply elem_of_nil in Hid.
Qed.

Lemma elem_of_batch ready s (r : CompletionRecord) :
  r ∈ batch ready s <->
  handleId r ∈ inflight s /\ ready !! handleId r = Some (resultCode r, errorDetail r).
Proof.
  unfold batch, detected. rewrite list_elem_of_fmap. split.
  - intros ([i [code detail]] & -> & Hin). simpl.
    rewrite merge_sort_Permutation in Hin. apply elem_of_map_to_list in Hin.
    apply map_lookup_filter_Some in Hin as [Hin Hfl]. done.
  - intros [Hfl Hin]. exists (handleId r, (resultCode r, errorDetail r)).
    split; [by destruct r|].
    rewrite merge_sort_Permutation. apply elem_of_map_to_list.
    by apply map_lookup_filter_Some.
Qed.

Lemma records_of_app id l1 l2 :
  records_of id (l1 ++ l2) = records_of id l1 + records_of id l2.
Proof. unfold records_of. by rewrite filter_app, length_app. Qed.

Lemma records_of_NoDup id (l : list CompletionRecord) :
  NoDup (handleId <$> l) ->
  records_of id l = if decide (id ∈ handleId <$> l) then 1 else 0.
Proof.
  unfold records_of. induction l as [|r l IH]; intros Hnd.
  - rewrite decide_False; [done|]. apply not_elem_of_nil.
  - rewrite fmap_cons in Hnd |- *. apply NoDup_cons in Hnd as [Hnin Hnd].
    rewrite filter_cons. specialize (IH Hnd).
    destruct (decide (handleId r = id)) as [<-|Hne]; cbn [length].
    + rewrite IH. rewrite (decide_False _ _ Hnin).
      rewrite decide_True; [done|]. by left.
    + rewrite IH. destruct (decide (id ∈ handleId <$> l)) as [Hin|Hin].
      * rewrite decide_True; [done|]. by right.
      * rewrite decide_False; [done|].
        intros [Heq|Hin']%elem_of_cons; [by apply Hne|by apply Hin].
Qed.

Lemma records_of_batch id ready s :
  records_of id (batch ready s)
  = if decide (id ∈ dom ready /\ id ∈ inflight s) then 1 else 0.
Proof.
  rewrite records_of_NoDup by apply NoDup_batch_ids.
  destruct (decide (id ∈ handleId <$> batch ready s)) as [Hin|Hin];
    rewrite elem_of_batch_ids in Hin.
  - by rewrite decide_True.
  - by rewrite decide_False.
Qed.

(** What one operation hands out and what it leaves waiting is what was
    waiting before and what the operation detected. *)
Lemma step_log o s :
  (step o s).2 ++ pending (step o s).1 = pending s ++ detects o s.
Proof.
  destruct o as [id|id|ready|tm ready|]; simpl.
  - rewrite app_nil_r. unfold addHandle. by destruct (decide (tracked id s)).
  - rewrite app_nil_r. unfold removeHandle. by destruct (decide (id ∈ inflight s)).
  - done.
  - done.
  - done.
Qed.

(** Every handle is accounted for across one operation. *)
Lemma step_account id o s :
  records_of id (detects o s) + detaches id o s + in_flight id (step o s).1
  = submits id o s + in_flight id s.
Proof.
  unfold in_flight.
  destruct o as [id'|id'|ready|tm ready|]; cbn [detects detaches submits step fst snd].
  - unfold addHandle, tracked.
    destruct (decide (id' ∈ inflight s \/ id' ∈ handleId <$> pending s)) as [Htr|Htr];
      [done|].
    cbn [inflight]. change (records_of id []) with 0.
    assert (Hnin : id' ∉ inflight s) by (intros Hin; apply Htr; by left).
    destruct (decide (id' = id)) as [->|Hne];
      repeat case_decide; try lia; exfalso;
      rewrite ?elem_of_union, ?elem_of_difference, ?elem_of_singleton in *;
      intuition congruence.
  - unfold removeHandle.
    destruct (decide (id' ∈ inflight s)) as [Hin'|Hin']; [|done].
    cbn [inflight]. change (records_of id []) with 0.
    destruct (decide (id' = id)) as [->|Hne];
      repeat case_decide; try lia; exfalso;
      rewrite ?elem_of_union, ?elem_of_difference, ?elem_of_singleton in *;
      intuition congruence.
  - rewrite records_of_batch. unfold pumpOnce, advance. cbn [inflight fst snd].
    repeat case_decide; try lia; exfalso;
      rewrite ?elem_of_union, ?elem_of_difference, ?elem_of_singleton in *;
      intuition congruence.
  - rewrite records_of_batch. unfold wait, advance. cbn [inflight fst snd].
    repeat case_decide; try lia; exfalso;
      rewrite ?elem_of_union, ?elem_of_difference, ?elem_of_singleton in *;
      intuition congruence.
  - done.
Qed.

Lemma exec_cons o ops s :
  exec (o :: ops) s
  = ((exec ops (step o s).1).1, (step o s).2 ++ (exec ops (step o s).1).2).
Proof. simpl. destruct (step o s) as [s1 out]. simpl. by destruct (exec ops s1). Qed.

Lemma exec_log ops s :
  (exec ops s).2 ++ pending (exec ops s).1 = pending s ++ completions ops s.
Proof.
  revert s. induction ops as [|o ops IH]; intros s.
  - simpl. by rewrite app_nil_r.
  - rewrite exec_cons. cbn [fst snd completions].
    rewrite <- (assoc_L (++)), IH, !(assoc_L (++)). f_equal. apply step_log.
Qed.

Lemma exec_account id ops s :
  records_of id (completions ops s) + detached id ops s + in_flight id (exec ops s).1
  = submitted id ops s + in_flight id s.
Proof.
  revert s. induction ops as [|o ops IH]; intros s.
  - done.
  - rewrite exec_cons. cbn [fst snd completions detached submitted].
    rewrite records_of_app. specialize (IH (step o s).1).
    pose proof (step_account id o s). lia.
Qed.

Lemma step_reachable o s : reachable s -> reachable (step o s).1.
Proof.
  intros Hs. destruct o as [id|id|ready|tm ready|]; simpl.
  - destruct (addHandle id s) as [|s'] eqn:Hadd; [done|]. by apply (reach_add id s).
  - destruct (removeHandle id s) as [s'|] eqn:Hrm; [|done]. by apply (reach_remove id s).
  - by apply reach_pump.
  - by apply reach_wait.
  - by apply reach_drain.
Qed.

Lemma exec_reachable ops s : reachable s -> reachable (exec ops s).1.
Proof.
  revert s. induction ops as [|o ops IH]; intros s Hs; [done|].
  rewrite exec_cons. simpl. by apply IH, step_reachable.
Qed.

Lemma exec_app ops1 ops2 s :
  exec (ops1 ++ ops2) s
  = ((exec ops2 (exec ops1 s).1).1, (exec ops1 s).2 ++ (exec ops2 (exec ops1 s).1).2).
Proof.
  revert s. induction ops1 as [|o ops1 IH]; intros s.
  - simpl. by destruct (exec ops2 s).
  - rewrite <- app_comm_cons, !exec_cons, IH. cbn [fst snd]. by rewrite (assoc_L (++)).
Qed.

(** C9: over any run of the scheduler from its empty state, the records the
    drains returned, followed by those still waiting, are the records of the
    handles that reached a terminal state, round after round in the order of
    detection, whatever the order of submission; after a drain none is
    waiting, so each has then been returned.  Each acceptance of a handle by
    [addHandle] is matched by exactly one of: one record, one detachment, or
    the handle still being in flight; so no terminal handle is ever reported
    twice.  The handles one [pumpOnce] or [wait] detects together are
    reported in strictly ascending id, each with the result the transport
    gave for it, and they are exactly the handles in flight that the
    transport marked ready. *)
Theorem drainCompletions_order (ops : list op) (ready : readiness) (timeoutMs : Z) :
  (exec ops empty).2 ++ pending (exec ops empty).1 = completions ops empty /\
  (exec (ops ++ [DrainCompletions]) empty).2 = completions ops empty /\
  (forall id,
     records_of id (completions ops empty) + detached id ops empty
       + in_flight id (exec ops empty).1
     = submitted id ops empty) /\
  NoDup (handleId <$> pending (exec ops empty).1) /\
  detects (PumpOnce ready) (exec ops empty).1 = detects (Wait timeoutMs ready) (exec ops empty).1 /\
  StronglySorted lt (handleId <$> detects (Wait timeoutMs ready) (exec ops empty).1) /\
  (forall r,
     r ∈ detects (Wait timeoutMs ready) (exec ops empty).1 <->
     handleId r ∈ inflight (exec ops empty).1 /\
     ready !! handleId r = Some (resultCode r, errorDetail r)).
Proof.
  split; [|split; [|split; [|split; [|split; [|split]]]]].
  - by rewrite exec_log.
  - rewrite exec_app. cbn [fst snd exec step drainCompletions].
    rewrite app_nil_r. by rewrite exec_log.
  - intros id. rewrite exec_account. unfold in_flight at 1. simpl.
    rewrite decide_False; [lia|]. apply not_elem_of_empty.
  - apply wf_reachable, exec_reachable. constructor.
  - reflexivity.
  - apply sorted_batch_ids.
  - intros r. apply elem_of_batch.
Qed.

Lemma drainCompletions_order_witness :
  (exec scenario empty).2
  = [mkRecord 2 0 None; mkRecord 3 28 (Some "Timeout"); mkRecord 1 0 None] /\
  records_of 2 (completions scenario empty) = 1 /\
  StronglySorted lt (handleId <$> detects (Wait 100 ready_2_3) (exec [AddHandle 3; AddHandle 1; AddHandle 2] empty).1).
Proof.
  destruct (drainCompletions_order scenario ready_1 100) as (Hlog & _ & Hacc & _).
  destruct (drainCompletions_order [AddHandle 3; AddHandle 1; AddHandle 2] ready_2_3 100)
    as (_ & _ & _ & _ & _ & Hsorted & _).
  split; [|split].
  - vm_compute. reflexivity.
  - specialize (Hacc 2). vm_compute in Hacc. vm_compute. lia.
  - exact Hsorted.
Defined.

End SchedulerTheory.

(** * Further properties of the shim *)

Module ShimBehaviour.
Import Shim ShimTheory.
#[local] Open Scope Z_scope.

(** ** The library call and what follows it *)

Section InfoReadBody.
Context {L : Type} `{!CurlLib L}.

(** After a non-null message, [bsn_curl_multi_info_read] continues with a
    body that makes no call, stores only through its non-null output
    pointers and can only return 1. *)
Lemma run_info_read_body multi_handle msgs_in_queue msg easy_handle result
    (w w1 : world L) message :
  curl_call (Curl_multi_info_read multi_handle msgs_in_queue) w = Some (message, w1) ->
  message ≠ NULL ->
  exists body : prog Z,
    all_events (fun ev => is_mem_event ev = true) body /\
    all_events (fun ev => forall q, store_addr ev = Some q ->
                  q ∈ filter (fun p => p ≠ NULL) [msg; easy_handle; result]) body /\
    all_returns (fun r => r = 1) body /\
    run (bsn_curl_multi_info_read multi_handle msgs_in_queue msg easy_handle result) w
    = (Ev_call (Curl_multi_info_read multi_handle msgs_in_queue) :: (run body w1).1,
       (run body w1).2).
Proof.
  intros Hcall Hmsg. unfold bsn_curl_multi_info_read.
  rewrite run_bind, run_call_full, Hcall. cbv beta iota.
  rewrite decide_False by done.
  exists ((if decide (msg ≠ NULL)
           then (v <- load message F_msg;; store_int msg (to_int v))
           else Ret tt);;
          (if decide (easy_handle ≠ NULL)
           then (v <- load message F_easy_handle;; store_ptr easy_handle v)
           else Ret tt);;
          (if decide (result ≠ NULL)
           then (v <- load message F_data_result;; store_int result v)
           else Ret tt);;
          Ret 1)%prog.
  split; [|split; [|split]]; last first.
  - match goal with
    | |- (let '(tr', o) := ?R in _) = _ =>
        change ((let '(tr', o) := R in
                 ([Ev_call (Curl_multi_info_read multi_handle msgs_in_queue)] ++ tr', o))
                = (Ev_call (Curl_multi_info_read multi_handle msgs_in_queue) :: R.1, R.2));
        destruct R
    end.
    reflexivity.
  - repeat (apply all_returns_bind; intros _). reflexivity.
  - repeat (apply all_events_bind; [|intros _]); try done;
      case_decide; simpl; try done; repeat split; try done;
      intros q [= <-]; apply list_elem_of_filter; (split; [done|]); set_solver.
  - repeat (apply all_events_bind; [|intros _]); try done;
      case_decide; simpl; try done; repeat split; done.
Qed.
End InfoReadBody.

(** ** Properties *)

(** X1: every exported function calls the library exactly once, first, with
    the call of the export table; what follows, if anything, are memory
    accesses, and for every export but [bsn_curl_multi_info_read] nothing
    follows.  This holds on every run, whatever the library returns. *)
Theorem shim_one_library_call {L} `{!CurlLib L} {t} (c : export t) (w : world L) :
  exists tr,
    trace (shim c) w = Ev_call (projT2 (wrapped c)) :: tr /\
    Forall (fun ev => is_mem_event ev = true) tr /\
    (if is_info_read c then True else tr = []).
Proof.
  destruct (is_info_read c) eqn:Hc.
  - destruct c; try discriminate Hc. cbn [shim wrapped projT2].
    destruct (curl_call (Curl_multi_info_read multi_handle msgs_in_queue) w)
      as [[message w1]|] eqn:Hcall.
    + destruct (decide (message = NULL)) as [Hn|Hn].
      * exists []. unfold trace, bsn_curl_multi_info_read.
        rewrite run_bind, run_call_full, Hcall. cbv beta iota.
        rewrite decide_True by done. simpl. done.
      * destruct (run_info_read_body multi_handle msgs_in_queue msg easy_handle result
                    w w1 message Hcall Hn) as (body & Hfree & _ & _ & Hrun).
        exists (trace body w1). unfold trace at 1. rewrite Hrun. simpl.
        split; [reflexivity|]. split; [|done]. by apply all_events_trace.
    + exists []. unfold trace, bsn_curl_multi_info_read.
      rewrite run_bind, run_call_full, Hcall. done.
  - destruct (shim_is_call c Hc) as (e & Hw & Hs). exists [].
    rewrite Hw, Hs. simpl. destruct (run_call e w) as [Htr _]. done.
Qed.

(** X4: if [msg] and [result] are the same non-null address, the object
    there ends up holding the message's result code, not its kind: the store
    through [result] comes last. *)
Theorem bsn_curl_multi_info_read_alias {L} `{!CurlLib L}
    multi_handle msgs_in_queue p easy_handle (w w1 : world L) message m n :
  curl_call (Curl_multi_info_read multi_handle msgs_in_queue) w = Some (message, w1) ->
  message ≠ NULL -> mem w1 !! message = Some (CMsg m) ->
  p ≠ NULL -> mem w1 !! p = Some (CInt n) -> ptr_out (mem w1) easy_handle ->
  exists w2,
    outcome (bsn_curl_multi_info_read multi_handle msgs_in_queue p easy_handle p) w
      = Some (1, w2) /\
    mem w2 !! p = Some (CInt (m_data_result m)).
Proof.
  intros Hcall Hmsg Hvalid Hp Hcell He.
  assert (Hout : int_out (mem w1) p) by (right; eauto).
  eexists. split.
  - unfold outcome. rewrite (run_info_read_some _ _ _ _ _ w w1 message m); done.
  - simpl. unfold copy_out. rewrite (decide_True _ _ Hp). by rewrite lookup_insert_eq.
Qed.

Lemma bsn_curl_multi_info_read_alias_witness :
  exists w2,
    outcome (bsn_curl_multi_info_read Fake.multi_slot NULL 16 NULL 16) Fake.w_pending
      = Some (1, w2) /\
    mem w2 !! 16 = Some (CInt 7).
Proof.
  apply (bsn_curl_multi_info_read_alias Fake.multi_slot NULL 16 NULL
           Fake.w_pending Fake.w_read Fake.msg_slot Fake.done_msg (-1)).
  - reflexivity.
  - intros H; discriminate H.
  - reflexivity.
  - intros H; discriminate H.
  - reflexivity.
  - by left.
Defined.

Lemma to_int_range z : int_min <= to_int z <= int_max.
Proof.
  unfold to_int, int_min, int_max.
  pose proof (Z.mod_pos_bound (z + 2 ^ 31) (2 ^ 32)). lia.
Qed.

Lemma to_int_small z : int_min <= z <= int_max -> to_int z = z.
Proof.
  unfold to_int, int_min, int_max. intros Hz.
  rewrite Z.mod_small by lia. lia.
Qed.

Lemma to_int_congr z : (to_int z - z) `mod` 2 ^ 32 = 0.
Proof.
  unfold to_int.
  pose proof (Z.div_mod (z + 2 ^ 31) (2 ^ 32)) as Hdm.
  replace ((z + 2 ^ 31) `mod` 2 ^ 32 - 2 ^ 31 - z)
    with (- ((z + 2 ^ 31) `div` 2 ^ 32) * 2 ^ 32) by lia.
  apply Z.mod_mul. lia.
Qed.

(** X5: the value stored through [msg] always fits an [int]; it is the
    message's kind reduced modulo 2^32, hence the kind itself whenever the
    kind fits an [int]. *)
Theorem bsn_curl_multi_info_read_kind_as_int {L} `{!CurlLib L}
    multi_handle msgs_in_queue msg easy_handle result (w w1 : world L) message m :
  curl_call (Curl_multi_info_read multi_handle msgs_in_queue) w = Some (message, w1) ->
  message ≠ NULL -> mem w1 !! message = Some (CMsg m) ->
  msg ≠ NULL -> msg ≠ result ->
  int_out (mem w1) msg -> ptr_out (mem w1) easy_handle -> int_out (mem w1) result ->
  exists w2 k,
    outcome (bsn_curl_multi_info_read multi_handle msgs_in_queue msg easy_handle result) w
      = Some (1, w2) /\
    mem w2 !! msg = Some (CInt k) /\
    int_min <= k <= int_max /\
    (k - m_msg m) `mod` 2 ^ 32 = 0 /\
    (int_min <= m_msg m <= int_max -> k = m_msg m).
Proof.
  intros Hcall Hmsg Hvalid Hn Hne Hm He Hr.
  eexists. exists (to_int (m_msg m)). split; [|split; [|split; [|split]]].
  - unfold outcome. rewrite (run_info_read_some _ _ _ _ _ w w1 message m); done.
  - simpl. unfold copy_out. rewrite (decide_True _ _ Hn).
    assert (msg ≠ easy_handle).
    { destruct Hm as [->|[k Hk]]; [done|].
      destruct He as [->|[q Hq]]; [done|]. congruence. }
    repeat case_decide; rewrite ?lookup_insert_ne by done; by rewrite lookup_insert_eq.
  - apply to_int_range.
  - apply to_int_congr.
  - apply to_int_small.
Qed.

Lemma bsn_curl_multi_info_read_kind_as_int_witness :
  exists w2,
    outcome (bsn_curl_multi_info_read Fake.multi_slot NULL 16 24 32) Fake.w_pending
      = Some (1, w2) /\
    mem w2 !! 16 = Some (CInt 1).
Proof.
  destruct (bsn_curl_multi_info_read_kind_as_int Fake.multi_slot NULL 16 24 32
              Fake.w_pending Fake.w_read Fake.msg_slot Fake.done_msg)
    as (w2 & k & Ho & Hk & _ & _ & Hsmall).
  - reflexivity.
  - intros H; discriminate H.
  - reflexivity.
  - intros H; discriminate H.
  - intros H; discriminate H.
  - right. exists (-1). reflexivity.
  - right. exists 0. reflexivity.
  - right. exists (-1). reflexivity.
  - exists w2. split; [exact Ho|]. rewrite Hk. f_equal. f_equal.
    apply Hsmall. vm_compute. split; intros H; discriminate H.
Defined.

(** X6: with all three output pointers null, [bsn_curl_multi_info_read]
    only asks whether a message is available: it is defined whenever the
    library call is, accesses no memory, never reads the message (which need
    not even be valid), and leaves the world as the call left it. *)
Theorem bsn_curl_multi_info_read_probe {L} `{!CurlLib L}
    multi_handle msgs_in_queue (w : world L) :
  trace (bsn_curl_multi_info_read multi_handle msgs_in_queue NULL NULL NULL) w
    = [Ev_call (Curl_multi_info_read multi_handle msgs_in_queue)] /\
  outcome (bsn_curl_multi_info_read multi_handle msgs_in_queue NULL NULL NULL) w
    = match curl_call (Curl_multi_info_read multi_handle msgs_in_queue) w with
      | Some (message, w1) => Some (if decide (message = NULL) then 0 else 1, w1)
      | None => None
      end.
Proof.
  unfold trace, outcome, bsn_curl_multi_info_read.
  rewrite run_bind, run_call_full.
  destruct (curl_call _ w) as [[message w1]|]; [|done]. cbv beta iota.
  destruct (decide (message = NULL)); [done|].
  rewrite !(decide_False (P := NULL ≠ NULL)) by (intros H; by apply H). done.
Qed.

(** X8: with a message available and valid pointers, the run of
    [bsn_curl_multi_info_read] is the library call followed, for each
    non-null pointer among [msg], [easy_handle] and [result] in that order,
    by one read of the matching member and one store of what was read; a
    member whose pointer is null is never read. *)
Theorem bsn_curl_multi_info_read_accesses {L} `{!CurlLib L}
    multi_handle msgs_in_queue msg easy_handle result (w w1 : world L) message m :
  curl_call (Curl_multi_info_read multi_handle msgs_in_queue) w = Some (message, w1) ->
  message ≠ NULL ->
  (msg ≠ NULL \/ easy_handle ≠ NULL \/ result ≠ NULL -> mem w1 !! message = Some (CMsg m)) ->
  int_out (mem w1) msg -> ptr_out (mem w1) easy_handle -> int_out (mem w1) result ->
  trace (bsn_curl_multi_info_read multi_handle msgs_in_queue msg easy_handle result) w
    = Ev_call (Curl_multi_info_read multi_handle msgs_in_queue)
        :: copy_events m message msg easy_handle result /\
  length (trace (bsn_curl_multi_info_read multi_handle msgs_in_queue msg easy_handle result) w)
    = S (2 * length (filter (fun p => p ≠ NULL) [msg; easy_handle; result])).
Proof.
  intros Hcall Hmsg Hvalid Hm He Hr. unfold trace.
  rewrite (run_info_read_some _ _ _ _ _ w w1 message m) by done. simpl.
  split; [reflexivity|]. unfold copy_events.
  rewrite !filter_cons, filter_nil.
  destruct (decide (msg ≠ NULL)), (decide (easy_handle ≠ NULL)),
    (decide (result ≠ NULL)); reflexivity.
Qed.

Lemma bsn_curl_multi_info_read_accesses_witness :
  trace (bsn_curl_multi_info_read Fake.multi_slot NULL NULL NULL 32) Fake.w_pending
    = [Ev_call (Curl_multi_info_read Fake.multi_slot NULL);
       Ev_mem (Load Fake.msg_slot F_data_result);
       Ev_mem (Store_int 32 7)].
Proof.
  destruct (bsn_curl_multi_info_read_accesses Fake.multi_slot NULL NULL NULL 32
              Fake.w_pending Fake.w_read Fake.msg_slot Fake.done_msg) as [Htr _].
  - reflexivity.
  - intros H; discriminate H.
  - intros _. reflexivity.
  - by left.
  - by left.
  - right. exists (-1). reflexivity.
  - exact Htr.
Defined.

End ShimBehaviour.
